(** * FSM: a shallow embedding of lib/FSM.js

    The module exports one factory, [newFSM], whose closure holds a private
    copy of the configuration and three variables ([isInternalValid],
    [current], [initStatus]); [init] validates the configuration once and the
    public API reads those variables, [handleEvent] being the only writer.

    Modelling choices.
    - JavaScript values are the JSON-like values a configuration is made of,
      plus functions: there are no arrays, symbols or accessors, numbers are
      integers and strings are ASCII.  A function is known by a label only:
      callback bodies belong to the caller, so a call is recorded (with the
      value that [currentState()] would return while it runs) and control
      comes back to the engine; a callback that throws, or that calls the
      machine again, is outside the model.
    - An object is the list of its own enumerable properties in enumeration
      order.  A string owns its characters and its [length]; a function
      stands for a function expression without parameters, in sloppy mode,
      named by its label, and owns [length], [name], [arguments], [caller]
      and [prototype]; the object it has as [prototype] owns [constructor],
      which is not enumerable.  Reading a property consults the own
      properties, then the built-in prototype of the value, then
      [Object.prototype].
    - lodash is the 4.17 line: [_.has] resolves its second argument as a
      path, [_.keys] lists the own enumerable keys (the indices, for a
      string), [_.each] walks a string or an object with a numeric [length]
      by index and any other object by its own properties, [_.cloneDeep]
      copies data and keeps nested functions.
    - [console.log] and [console.error] are not modelled.
    - Reading a property of [undefined] or [null] throws a [TypeError]. *)

From Stdlib Require Import String Ascii List Bool ZArith Lia DecimalString.
Import ListNotations.
Open Scope string_scope.

(** ** JavaScript values *)

Set Warnings "-register-all".

Inductive value : Type :=
| VUndef
| VNull
| VBool (b : bool)
| VNum (n : Z)
| VStr (s : string)
| VFun (label : string)
| VObj (props : list (string * value))
| VProto (label : string).

Inductive error : Type :=
| TypeError.

Inductive outcome (A : Type) : Type :=
| Ret (a : A)
| Throw (e : error).

Arguments Ret {A} a.
Arguments Throw {A} e.

(** [ToBoolean]. *)
Definition truthy (v : value) : bool :=
  match v with
  | VUndef | VNull => false
  | VBool b => b
  | VNum n => negb (Z.eqb n 0)
  | VStr s => negb (String.eqb s "")
  | VFun _ | VObj _ | VProto _ => true
  end.

Definition isString (v : value) : bool :=
  match v with VStr _ => true | _ => false end.

Definition isFunction (v : value) : bool :=
  match v with VFun _ => true | _ => false end.

(** [v == null]. *)
Definition nullish (v : value) : bool :=
  match v with VUndef | VNull => true | _ => false end.

(** [ToPropertyKey], as [obj[v]] and [_.has(obj, v)] apply it. *)
Definition toKey (v : value) : string :=
  match v with
  | VUndef => "undefined"
  | VNull => "null"
  | VBool true => "true"
  | VBool false => "false"
  | VNum n => NilZero.string_of_int (Z.to_int n)
  | VStr s => s
  | VFun label => "function " ++ label ++ "() { [code] }"
  | VObj _ | VProto _ => "[object Object]"
  end.

(** Lookup in a list of properties. *)
Fixpoint own (props : list (string * value)) (key : string) : option value :=
  match props with
  | [] => None
  | (k, v) :: rest => if String.eqb k key then Some v else own rest key
  end.

(** The key of the element of index [i]. *)
Definition indexKey (i : nat) : string :=
  NilZero.string_of_uint (Nat.to_uint i).

(** The characters of a string, each as a string. *)
Definition chars (s : string) : list string :=
  map (fun c => String c EmptyString) (list_ascii_of_string s).

(** The own properties of a string: its characters, then [length]. *)
Definition stringProps (s : string) : list (string * value) :=
  (combine (map indexKey (seq 0 (String.length s))) (map VStr (chars s))
   ++ [("length", VNum (Z.of_nat (String.length s)))])%list.

(** The own properties of a function. *)
Definition functionProps (label : string) : list (string * value) :=
  [ ("length", VNum 0); ("name", VStr label); ("arguments", VNull);
    ("caller", VNull); ("prototype", VProto label) ].

(** The own property [key] of [v], enumerable or not. *)
Definition ownProperty (v : value) (key : string) : option value :=
  match v with
  | VObj props => own props key
  | VStr s => own (stringProps s) key
  | VFun label => own (functionProps label) key
  | VProto label =>
      if String.eqb key "constructor" then Some (VFun label) else None
  | _ => None
  end.

(** [Object.prototype.hasOwnProperty.call(v, key)]. *)
Definition hasOwn (v : value) (key : string) : bool :=
  match ownProperty v key with Some _ => true | None => false end.

(** The properties of [Object.prototype]. *)
Definition objectPrototype : list string :=
  [ "constructor"; "hasOwnProperty"; "isPrototypeOf"; "propertyIsEnumerable";
    "toLocaleString"; "toString"; "valueOf"; "__proto__";
    "__defineGetter__"; "__defineSetter__";
    "__lookupGetter__"; "__lookupSetter__" ].

(** What [String.prototype], [Function.prototype] and [Number.prototype]
    add to them. *)
Definition stringPrototype : list string :=
  [ "anchor"; "at"; "big"; "blink"; "bold"; "charAt"; "charCodeAt";
    "codePointAt"; "concat"; "endsWith"; "fixed"; "fontcolor"; "fontsize";
    "includes"; "indexOf"; "isWellFormed"; "italics"; "lastIndexOf"; "link";
    "localeCompare"; "match"; "matchAll"; "normalize"; "padEnd"; "padStart";
    "repeat"; "replace"; "replaceAll"; "search"; "slice"; "small"; "split";
    "startsWith"; "strike"; "sub"; "substr"; "substring"; "sup";
    "toLocaleLowerCase"; "toLocaleUpperCase"; "toLowerCase"; "toUpperCase";
    "toWellFormed"; "trim"; "trimEnd"; "trimLeft"; "trimRight"; "trimStart" ].

Definition functionPrototype : list string := [ "apply"; "bind"; "call" ].

Definition numberPrototype : list string :=
  [ "toExponential"; "toFixed"; "toPrecision" ].

(** The names that [v] inherits. *)
Definition prototypeOf (v : value) : list string :=
  match v with
  | VUndef | VNull => []
  | VStr _ => stringPrototype ++ objectPrototype
  | VFun _ => functionPrototype ++ objectPrototype
  | VNum _ => numberPrototype ++ objectPrototype
  | VBool _ | VObj _ | VProto _ => objectPrototype
  end%list.

(** What [v] inherits under [key]: a built-in function, the prototype
    itself for [__proto__], nothing for any other name. *)
Definition inherited (v : value) (key : string) : value :=
  if existsb (String.eqb key) (prototypeOf v)
  then (if String.eqb key "__proto__" then VObj []
        else VFun ("prototype." ++ key))
  else VUndef.

(** [v[key]] for a [v] that is neither [undefined] nor [null]. *)
Definition prop (v : value) (key : string) : value :=
  match ownProperty v key with
  | Some x => x
  | None => inherited v key
  end.

(** [v[key]] and [v.key]. *)
Definition get (v : value) (key : string) : outcome value :=
  if nullish v then Throw TypeError else Ret (prop v key).

(** [key in Object(v)]. *)
Definition inOp (v : value) (key : string) : bool :=
  hasOwn v key || existsb (String.eqb key) (prototypeOf v).

(** *** lodash: paths *)

Definition dot : ascii := "."%char.
Definition lbracket : ascii := "["%char.
Definition rbracket : ascii := "]"%char.
Definition backslash : ascii := ascii_of_nat 92.
Definition dquote : ascii := ascii_of_nat 34.
Definition squote : ascii := ascii_of_nat 39.
Definition minus : ascii := "-"%char.

(** A word character. *)
Definition isWord (c : ascii) : bool :=
  let n := nat_of_ascii c in
  (Nat.leb 48 n && Nat.leb n 57) || (Nat.leb 65 n && Nat.leb n 90)
  || (Nat.leb 97 n && Nat.leb n 122) || Nat.eqb n 95.

(** A digit. *)
Definition isDigit (c : ascii) : bool :=
  let n := nat_of_ascii c in Nat.leb 48 n && Nat.leb n 57.

(** A line terminator, which an escape does not cover. *)
Definition isLineTerminator (c : ascii) : bool :=
  let n := nat_of_ascii c in Nat.eqb n 10 || Nat.eqb n 13.

Definition isQuote (c : ascii) : bool :=
  Ascii.eqb c dquote || Ascii.eqb c squote.

(** Neither a dot nor a bracket. *)
Definition isNameChar (c : ascii) : bool :=
  negb (Ascii.eqb c dot || Ascii.eqb c lbracket || Ascii.eqb c rbracket).

(** [reIsPlainProp]: word characters only. *)
Definition isPlainProp (s : string) : bool :=
  forallb isWord (list_ascii_of_string s).

(** The longest prefix of characters that satisfy [p], and the rest. *)
Fixpoint span (p : ascii -> bool) (l : list ascii)
  : list ascii * list ascii :=
  match l with
  | [] => ([], [])
  | c :: r => if p c then let (a, b) := span p r in (c :: a, b)
              else ([], l)
  end.

(** After an opening quote [q]: the body, made of characters other than [q]
    and the backslash and of escaped characters, up to the closing quote,
    and what follows that quote. *)
Fixpoint quoted (q : ascii) (l : list ascii)
  : option (list ascii * list ascii) :=
  match l with
  | [] => None
  | c :: r =>
      if Ascii.eqb c q then Some ([], r)
      else if Ascii.eqb c backslash then
        match r with
        | [] => None
        | d :: r' =>
            if isLineTerminator d then None
            else match quoted q r' with
                 | Some (body, rest) => Some (c :: d :: body, rest)
                 | None => None
                 end
        end
      else match quoted q r with
           | Some (body, rest) => Some (c :: body, rest)
           | None => None
           end
  end.

(** After an opening bracket: a quoted string and the closing bracket. *)
Definition bracketQuoted (l : list ascii)
  : option (list ascii * list ascii) :=
  match l with
  | q :: r =>
      if isQuote q then
        match quoted q r with
        | Some (body, c :: rest) =>
            if Ascii.eqb c rbracket then Some (body, rest) else None
        | _ => None
        end
      else None
  | [] => None
  end.

(** After an opening bracket: characters other than brackets, then a
    closing bracket. *)
Definition bracketSimple (l : list ascii) : bool :=
  match snd (span (fun c => negb (Ascii.eqb c lbracket || Ascii.eqb c rbracket)) l) with
  | c :: _ => Ascii.eqb c rbracket
  | [] => false
  end.

(** [reIsDeepProp]: a dot somewhere, or an opening bracket followed by
    characters other than brackets, or by a quoted string, and a closing
    bracket. *)
Fixpoint isDeep (l : list ascii) : bool :=
  match l with
  | [] => false
  | c :: r =>
      if Ascii.eqb c dot then true
      else if Ascii.eqb c lbracket then
        bracketSimple r
        || (match bracketQuoted r with Some _ => true | None => false end)
        || isDeep r
      else isDeep r
  end.

Definition isDeepProp (s : string) : bool := isDeep (list_ascii_of_string s).

(** After an opening bracket: a decimal number, with an optional sign and
    fraction, and the closing bracket. *)
Definition bracketNumber (l : list ascii)
  : option (list ascii * list ascii) :=
  let (sign, l1) :=
    match l with
    | c :: r => if Ascii.eqb c minus then ([c], r) else ([], l)
    | [] => ([], l)
    end in
  let (digits, l2) := span isDigit l1 in
  match digits, l2 with
  | [], _ => None
  | _, c :: r =>
      if Ascii.eqb c rbracket then Some (sign ++ digits, r)
      else if Ascii.eqb c dot then
        let (fraction, l3) := span isDigit r in
        match fraction, l3 with
        | [], _ => None
        | _, c' :: r' =>
            if Ascii.eqb c' rbracket
            then Some (sign ++ digits ++ c :: fraction, r')
            else None
        | _, [] => None
        end
      else None
  | _, [] => None
  end%list.

(** The third alternative of [rePropName]: a dot or an empty pair of
    brackets, followed by another one or by the end of the string. *)
Definition emptyName (l : list ascii) : bool :=
  let after (l : list ascii) : option (list ascii) :=
    match l with
    | c :: r =>
        if Ascii.eqb c dot then Some r
        else if Ascii.eqb c lbracket then
          match r with
          | c' :: r' => if Ascii.eqb c' rbracket then Some r' else None
          | [] => None
          end
        else None
    | [] => None
    end in
  match after l with
  | Some [] => true
  | Some r => match after r with Some _ => true | None => false end
  | None => false
  end.

(** The unescaping of a quoted name: a backslash is dropped, and of two
    backslashes one is kept. *)
Fixpoint unescape (l : list ascii) : list ascii :=
  match l with
  | [] => []
  | c :: r =>
      if Ascii.eqb c backslash then
        match r with
        | d :: r' => if Ascii.eqb d backslash then d :: unescape r'
                     else unescape r
        | [] => []
        end
      else c :: unescape r
  end.

(** The matches of [rePropName] from left to right, as [stringToPath]
    collects them. *)
Fixpoint propNames (fuel : nat) (l : list ascii) : list string :=
  match fuel with
  | O => []
  | S fuel' =>
      match l with
      | [] => []
      | c :: r =>
          if isNameChar c then
            let (name, rest) := span isNameChar l in
            string_of_list_ascii name :: propNames fuel' rest
          else
            let otherwise :=
              if emptyName l then "" :: propNames fuel' r
              else propNames fuel' r in
            if Ascii.eqb c lbracket then
              match bracketNumber r with
              | Some (number, rest) =>
                  string_of_list_ascii number :: propNames fuel' rest
              | None =>
                  match bracketQuoted r with
                  | Some (body, rest) =>
                      string_of_list_ascii (unescape body)
                      :: propNames fuel' rest
                  | None => otherwise
                  end
              end
            else otherwise
      end
  end.

(** [stringToPath(s)]. *)
Definition stringToPath (s : string) : list string :=
  let l := list_ascii_of_string s in
  ((match l with
    | c :: _ => if Ascii.eqb c dot then [""] else []
    | [] => []
    end) ++ propNames (S (List.length l)) l)%list.

(** [isKey(s, v)]. *)
Definition isKey (s : string) (v : value) : bool :=
  isPlainProp s || negb (isDeepProp s) || inOp v s.

(** [castPath(s, v)]. *)
Definition castPath (s : string) (v : value) : list string :=
  if isKey s v then [s] else stringToPath s.

(** The loop of [hasPath]: every name of the path is an own property of the
    value reached so far. *)
Fixpoint ownPath (v : value) (path : list string) : bool :=
  match path with
  | [] => true
  | key :: rest =>
      match ownProperty v key with
      | Some x => ownPath x rest
      | None => false
      end
  end.

(** [_.has(v, path)].  There are no arrays and no [arguments] objects, so
    the test of an index that ends [hasPath] never applies. *)
Definition has (v : value) (path : string) : bool :=
  negb (nullish v) &&
  match castPath path v with
  | [] => false
  | p => ownPath v p
  end.

(** *** lodash: collections *)

(** [_.keys(v)]. *)
Definition keys (v : value) : list string :=
  match v with
  | VObj props => map fst props
  | VStr s => map indexKey (seq 0 (String.length s))
  | _ => []
  end.

(** [isLength(v)]. *)
Definition isLength (v : value) : bool :=
  match v with
  | VNum n => Z.leb 0 n && Z.leb n 9007199254740991
  | _ => false
  end.

(** [isArrayLike(v)]. *)
Definition isArrayLike (v : value) : bool :=
  negb (nullish v) && negb (isFunction v) && isLength (prop v "length").

(** The (name, value) pairs [_.each] visits, in order: the indices below
    [length] of an array-like value, the own properties of any other
    object. *)
Definition entries (v : value) : list (string * value) :=
  if isArrayLike v then
    match prop v "length" with
    | VNum n => map (fun i => (indexKey i, prop v (indexKey i)))
                    (seq 0 (Z.to_nat n))
    | _ => []
    end
  else
    match v with
    | VObj props => props
    | _ => []
    end.

(** The copy that [_.cloneDeep] makes of a nested value: values are
    immutable here, so the copy of a datum is made of the copies of its
    properties; a function is kept, and of a prototype object nothing is
    copied. *)
Fixpoint baseClone (v : value) : value :=
  match v with
  | VObj props =>
      VObj (map (fun kv : string * value =>
                   let (k, x) := kv in (k, baseClone x)) props)
  | VProto _ => VObj []
  | _ => v
  end.

(** [_.cloneDeep(v)]: a function met at top level is replaced by an empty
    object. *)
Definition cloneDeep (v : value) : value :=
  match v with
  | VFun _ => VObj []
  | _ => baseClone v
  end.

(** [a || b]. *)
Definition orElse (a b : value) : value := if truthy a then a else b.

Arguments get : simpl never.
Arguments has : simpl never.
Arguments entries : simpl never.
Arguments prop : simpl never.

(** ** Status codes *)

Inductive statusCode : Type :=
| OK
| ERROR_ILLEGAL_EVENT
| ERROR_INVALID_START_STATE
| ERROR_NO_VALID_STATES
| ERROR_INVALID_EVENT_NODE
| ERROR_INVALID_TARGET_STATE
| ERROR_INVALID_TRANSISTION_FUNCTION
| ERROR_INVALID_ACTION_FUNCTION
| ERROR_IMPROPERLY_INITIALIZED.

Definition statusCode_eqb (a b : statusCode) : bool :=
  match a, b with
  | OK, OK
  | ERROR_ILLEGAL_EVENT, ERROR_ILLEGAL_EVENT
  | ERROR_INVALID_START_STATE, ERROR_INVALID_START_STATE
  | ERROR_NO_VALID_STATES, ERROR_NO_VALID_STATES
  | ERROR_INVALID_EVENT_NODE, ERROR_INVALID_EVENT_NODE
  | ERROR_INVALID_TARGET_STATE, ERROR_INVALID_TARGET_STATE
  | ERROR_INVALID_TRANSISTION_FUNCTION, ERROR_INVALID_TRANSISTION_FUNCTION
  | ERROR_INVALID_ACTION_FUNCTION, ERROR_INVALID_ACTION_FUNCTION
  | ERROR_IMPROPERLY_INITIALIZED, ERROR_IMPROPERLY_INITIALIZED => true
  | _, _ => false
  end.

(** ** Effects: state, exceptions and the record of callback calls *)

(** One call of a caller-supplied function, with the value of [current] at
    the moment of the call. *)
Inductive call : Type :=
| Invoked (label : string) (seen : value).

Definition M (S A : Type) : Type := S -> outcome (A * S * list call).

Definition ret {S A} (a : A) : M S A := fun s => Ret (a, s, []).

Definition bind {S A B} (c : M S A) (k : A -> M S B) : M S B :=
  fun s =>
    match c s with
    | Throw e => Throw e
    | Ret (a, s1, t1) =>
        match k a s1 with
        | Throw e => Throw e
        | Ret (b, s2, t2) => Ret (b, s2, (t1 ++ t2)%list)
        end
    end.

Notation "x <- c ;; k" := (bind c (fun x => k))
  (at level 61, c at next level, right associativity).
Notation "c ;; k" := (bind c (fun _ => k))
  (at level 61, right associativity).

Definition lift {S A} (o : outcome A) : M S A :=
  fun s => match o with Ret a => Ret (a, s, []) | Throw e => Throw e end.

Definition reads {S A} (f : S -> A) : M S A := fun s => Ret (f s, s, []).

Definition modify {S} (f : S -> S) : M S unit := fun s => Ret (tt, f s, []).

(** [cond && effect] used as a statement. *)
Definition when {S} (cond : bool) (c : M S unit) : M S unit :=
  if cond then c else ret tt.

(** The walk of [_.each] over the pairs it visits. *)
Fixpoint forEach {S} (iteratee : value -> string -> M S unit)
         (l : list (string * value)) : M S unit :=
  match l with
  | [] => ret tt
  | (k, v) :: rest => iteratee v k ;; forEach iteratee rest
  end.

Definition each {S} (collection : value) (iteratee : value -> string -> M S unit)
  : M S unit :=
  forEach iteratee (entries collection).

(** ** The closure of [newFSM] *)

Record fsm : Type := mkFsm {
  config : value;
  isInternalValid : bool;
  current : value;
  initStatus : statusCode
}.

Definition set_isInternalValid (b : bool) (m : fsm) : fsm :=
  mkFsm (config m) b (current m) (initStatus m).

Definition set_current (v : value) (m : fsm) : fsm :=
  mkFsm (config m) (isInternalValid m) v (initStatus m).

Definition set_initStatus (s : statusCode) (m : fsm) : fsm :=
  mkFsm (config m) (isInternalValid m) (current m) s.

(** The local variables of [init]. *)
Record locals : Type := mkLocals {
  hasInvalidStartState : bool;
  hasInvalidStateNodes : bool;
  hasInvalidEventNode : bool;
  hasInvalidToState : bool;
  hasInvalidTransitionFunction : bool;
  hasInvalidActionFunction : bool
}.

Definition noError : locals := mkLocals false false false false false false.

Definition set_hasInvalidStartState (l : locals) : locals :=
  mkLocals true (hasInvalidStateNodes l) (hasInvalidEventNode l)
           (hasInvalidToState l) (hasInvalidTransitionFunction l)
           (hasInvalidActionFunction l).

Definition set_hasInvalidStateNodes (l : locals) : locals :=
  mkLocals (hasInvalidStartState l) true (hasInvalidEventNode l)
           (hasInvalidToState l) (hasInvalidTransitionFunction l)
           (hasInvalidActionFunction l).

Definition set_hasInvalidEventNode (l : locals) : locals :=
  mkLocals (hasInvalidStartState l) (hasInvalidStateNodes l) true
           (hasInvalidToState l) (hasInvalidTransitionFunction l)
           (hasInvalidActionFunction l).

Definition set_hasInvalidToState (l : locals) : locals :=
  mkLocals (hasInvalidStartState l) (hasInvalidStateNodes l)
           (hasInvalidEventNode l) true (hasInvalidTransitionFunction l)
           (hasInvalidActionFunction l).

Definition set_hasInvalidTransitionFunction (l : locals) : locals :=
  mkLocals (hasInvalidStartState l) (hasInvalidStateNodes l)
           (hasInvalidEventNode l) (hasInvalidToState l) true
           (hasInvalidActionFunction l).

Definition set_hasInvalidActionFunction (l : locals) : locals :=
  mkLocals (hasInvalidStartState l) (hasInvalidStateNodes l)
           (hasInvalidEventNode l) (hasInvalidToState l)
           (hasInvalidTransitionFunction l) true.

(** While [init] runs, the state is its locals and the closure variables. *)
Definition initState : Type := (locals * fsm)%type.

Definition flag (f : locals -> locals) : M initState unit :=
  modify (fun s => (f (fst s), snd s)).

Definition assign (f : fsm -> fsm) : M initState unit :=
  modify (fun s => (fst s, f (snd s))).

(** ** [init] (FSM.js, lines 50-148) *)

(** The body of the inner [_.each(events, ...)] (lines 109-137). *)
Definition inspectEvent (states : value) (event : value) (eventName : string)
  : M initState unit :=
  if negb (truthy event) then
    assign (set_initStatus ERROR_INVALID_EVENT_NODE) ;;
    flag set_hasInvalidEventNode
  else
    onBefore <- lift (get event "onBefore") ;;
    when (truthy onBefore && negb (isFunction onBefore))
         (flag set_hasInvalidTransitionFunction) ;;
    onAfter <- lift (get event "onAfter") ;;
    when (truthy onAfter && negb (isFunction onAfter))
         (flag set_hasInvalidTransitionFunction) ;;
    bad <- reads (fun s => hasInvalidTransitionFunction (fst s)) ;;
    when bad (assign (set_initStatus ERROR_INVALID_TRANSISTION_FUNCTION)) ;;
    toState <- lift (get event "toState") ;;
    let isToStateString := isString toState in
    target <- (if isToStateString then lift (get states (toKey toState))
               else ret VUndef) ;;
    when (negb isToStateString || negb (truthy target))
         (flag set_hasInvalidToState ;;
          assign (set_initStatus ERROR_INVALID_TARGET_STATE)).

(** The inspection of the action functions of a state (lines 94-106). *)
Definition inspectActions (state : value) : M initState unit :=
  actions <- lift (get state "actions") ;;
  when (truthy actions)
       (onEnter <- lift (get actions "onEnter") ;;
        when (truthy onEnter && negb (isFunction onEnter))
             (flag set_hasInvalidActionFunction) ;;
        onExit <- lift (get actions "onExit") ;;
        when (truthy onExit && negb (isFunction onExit))
             (flag set_hasInvalidActionFunction) ;;
        bad <- reads (fun s => hasInvalidActionFunction (fst s)) ;;
        when bad (assign (set_initStatus ERROR_INVALID_ACTION_FUNCTION))).

(** The body of the outer [_.each(states, ...)] (lines 85-139). *)
Definition inspectState (states : value) (state : value) (stateName : string)
  : M initState unit :=
  events <- lift (get state "events") ;;
  let eventNames := keys events in
  if Nat.ltb (length eventNames) 1 then
    ret tt
  else
    inspectActions state ;;
    each events (inspectEvent states).

Definition init : M initState unit :=
  cfg <- reads (fun s => config (snd s)) ;;
  states <- lift (get cfg "states") ;;
  (if truthy states then
     let stateNames := keys states in
     cs <- lift (get cfg "startState") ;;
     let startState := if isString cs then cs else VNull in
     sv <- lift (get states (toKey startState)) ;;
     (if truthy sv then
        assign (set_current startState)
      else
        flag set_hasInvalidStartState ;;
        assign (set_initStatus ERROR_INVALID_START_STATE)) ;;
     when (Nat.ltb (length stateNames) 1)
          (assign (set_initStatus ERROR_NO_VALID_STATES) ;;
           flag set_hasInvalidStateNodes) ;;
     each states (inspectState states)
   else
     assign (set_initStatus ERROR_NO_VALID_STATES) ;;
     flag set_hasInvalidStateNodes) ;;
  l <- reads fst ;;
  assign (set_isInternalValid
            (negb (hasInvalidStartState l) && negb (hasInvalidStateNodes l)
             && negb (hasInvalidEventNode l) && negb (hasInvalidToState l)
             && negb (hasInvalidActionFunction l)
             && negb (hasInvalidTransitionFunction l))).

(** The closure as [newFSM] sets it up before [init] runs (lines 44-48). *)
Definition initialClosure (userConfig : value) : fsm :=
  mkFsm (cloneDeep (orElse userConfig (VObj []))) false VNull OK.

(** [init] run on a fresh closure: the final locals and closure variables. *)
Definition runInit (userConfig : value) : outcome initState :=
  match init (noError, initialClosure userConfig) with
  | Ret (_, s, _) => Ret s
  | Throw e => Throw e
  end.

(** [exports.newFSM]: the machine behind the returned public API. *)
Definition newFSM (userConfig : value) : outcome fsm :=
  match runInit userConfig with
  | Ret s => Ret (snd s)
  | Throw e => Throw e
  end.

(** ** The public API (lines 157-222) *)

Definition fire (label : string) : M fsm unit :=
  fun m => Ret (tt, m, [Invoked label (current m)]).

(** [_.isFunction(f) && f()]. *)
Definition callIfFunction (f : value) : M fsm unit :=
  match f with
  | VFun label => fire label
  | _ => ret tt
  end.

Definition canHandleEvent (name : string) : M fsm bool :=
  valid <- reads isInternalValid ;;
  if negb valid then
    ret false
  else
    cfg <- reads config ;;
    cur <- reads current ;;
    states <- lift (get cfg "states") ;;
    state <- lift (get states (toKey cur)) ;;
    events <- lift (get state "events") ;;
    ret (has events name).

(** [_.has(config.states, eventNode.toState)] is given a value: a number, a
    boolean, [null] or [undefined] is used as one key, the string that
    [toKey] gives, and that string is made of word characters and of a sign,
    so [has] takes it for one key as well; a function or an object is
    turned into its string. *)
Definition handleEvent (name : string) : M fsm statusCode :=
  valid <- reads isInternalValid ;;
  if negb valid then
    ret ERROR_IMPROPERLY_INITIALIZED
  else
    can <- canHandleEvent name ;;
    if can then
      cfg <- reads config ;;
      cur <- reads current ;;
      states <- lift (get cfg "states") ;;
      state <- lift (get states (toKey cur)) ;;
      events <- lift (get state "events") ;;
      eventNode <- lift (get events name) ;;
      toState <- lift (get eventNode "toState") ;;
      if has states (toKey toState) then
        ca <- lift (get state "actions") ;;
        let currentActionsNode := orElse ca (VObj []) in
        target <- lift (get states (toKey toState)) ;;
        ta <- lift (get target "actions") ;;
        let targetActionsNode := orElse ta (VObj []) in
        onExitCurrentState <- lift (get currentActionsNode "onExit") ;;
        onEnterTargetState <- lift (get targetActionsNode "onEnter") ;;
        onBefore <- lift (get eventNode "onBefore") ;;
        callIfFunction onBefore ;;
        callIfFunction onExitCurrentState ;;
        modify (set_current toState) ;;
        callIfFunction onEnterTargetState ;;
        onAfter <- lift (get eventNode "onAfter") ;;
        callIfFunction onAfter ;;
        ret OK
      else
        ret ERROR_INVALID_TARGET_STATE
    else
      ret ERROR_ILLEGAL_EVENT.

Definition status : M fsm statusCode := reads initStatus.

Definition currentState : M fsm value := reads current.

Definition isValid : M fsm bool :=
  reads (fun m => statusCode_eqb (initStatus m) OK).

(** ** Sample configurations *)

Definition ev (toState : string) : value := VObj [("toState", VStr toState)].

(** The light switch of the README. *)
Definition lightSwitch : value :=
  VObj [ ("startState", VStr "Off");
         ("states", VObj [
            ("Off", VObj [("events", VObj [("turnOn", ev "On")])]);
            ("On", VObj [("events", VObj [("turnOff", ev "Off")])]) ]) ].

(** The login sequence of the README. *)
Definition loginSequence : value :=
  VObj [ ("startState", VStr "LoggedOut");
         ("states", VObj [
            ("LoggedOut", VObj [
               ("events", VObj [ ("login", ev "LoggingIn") ]);
               ("actions", VObj [ ("onEnter", VFun "youHaveBeenLoggedOut") ]) ]);
            ("LoggingIn", VObj [
               ("events", VObj [
                  ("success", ev "LoggedIn");
                  ("failure", VObj [ ("toState", VStr "LoggedOut");
                                     ("onBefore", VFun "loginFailed") ]) ]) ]);
            ("LoggedIn", VObj [
               ("events", VObj [
                  ("logout", VObj [ ("toState", VStr "LoggedOut");
                                    ("onAfter", VFun "thanksForPlaying") ]) ]);
               ("actions", VObj [ ("onEnter", VFun "youAreNowLoggedIn") ]) ]) ]) ].

(** Several calls of [handleEvent] in a row. *)
Fixpoint handleEvents (names : list string) : M fsm (list statusCode) :=
  match names with
  | [] => ret []
  | name :: rest =>
      r <- handleEvent name ;;
      rs <- handleEvents rest ;;
      ret (r :: rs)
  end.

(** A turnstile with every kind of callback: a coin unlocks it, a push on
    the locked turnstile leaves it locked. *)
Definition turnstile : value :=
  VObj [ ("startState", VStr "Locked");
         ("states", VObj [
            ("Locked", VObj [
               ("events", VObj [
                  ("coin", VObj [ ("toState", VStr "Unlocked");
                                  ("onBefore", VFun "beforeCoin");
                                  ("onAfter", VFun "afterCoin") ]);
                  ("push", VObj [ ("toState", VStr "Locked");
                                  ("onBefore", VFun "beforePush");
                                  ("onAfter", VFun "afterPush") ]) ]);
               ("actions", VObj [ ("onEnter", VFun "enterLocked");
                                  ("onExit", VFun "exitLocked") ]) ]);
            ("Unlocked", VObj [
               ("events", VObj [ ("push", ev "Locked") ]);
               ("actions", VObj [ ("onEnter", VFun "enterUnlocked");
                                  ("onExit", VFun "exitUnlocked") ]) ]) ]) ].

(** [{ startState: 'A', states: { A: null } }]. *)
Definition nullState : value :=
  VObj [ ("startState", VStr "A"); ("states", VObj [("A", VNull)]) ].

(** One state whose only event targets ['constructor'], which is no state
    but a property every object inherits. *)
Definition inheritedTarget : value :=
  VObj [ ("startState", VStr "A");
         ("states", VObj [
            ("A", VObj [("events", VObj [("go", ev "constructor")])]) ]) ].

(** The light switch, with [turnOff] sent to ['toString']. *)
Definition strayTarget : value :=
  VObj [ ("startState", VStr "Off");
         ("states", VObj [
            ("Off", VObj [("events", VObj [("turnOn", ev "On")])]);
            ("On", VObj [("events", VObj [("turnOff", ev "toString")])]) ]) ].

(** The light switch, started in ['valueOf']. *)
Definition inheritedStart : value :=
  VObj [ ("startState", VStr "valueOf");
         ("states", VObj [
            ("Off", VObj [("events", VObj [("turnOn", ev "On")])]);
            ("On", VObj [("events", VObj [("turnOff", ev "Off")])]) ]) ].

(** A final state, without events, whose [onEnter] is a string. *)
Definition terminalDone : value :=
  VObj [ ("events", VObj []);
         ("actions", VObj [("onEnter", VStr "notAFunction")]) ].

Definition terminalStates : value :=
  VObj [ ("Busy", VObj [("events", VObj [("finish", ev "Done")])]);
         ("Done", terminalDone) ].

Definition terminalBadAction : value :=
  VObj [ ("startState", VStr "Busy"); ("states", terminalStates) ].

(** A state with an event whose [onEnter] is [0]. *)
Definition falsyAction : value :=
  VObj [ ("startState", VStr "A");
         ("states", VObj [
            ("A", VObj [
               ("events", VObj [("go", ev "A")]);
               ("actions", VObj [("onEnter", VNum 0)]) ]) ]) ].

(** A state whose [onEnter] is a string and whose event has no target. *)
Definition badActionBadTarget : value :=
  VObj [ ("startState", VStr "A");
         ("states", VObj [
            ("A", VObj [
               ("events", VObj [("go", ev "Nowhere")]);
               ("actions", VObj [("onEnter", VStr "notAFunction")]) ]) ]) ].

(** A state with an event whose [onEnter] is a string. *)
Definition badAction : value :=
  VObj [ ("startState", VStr "A");
         ("states", VObj [
            ("A", VObj [
               ("events", VObj [("go", ev "A")]);
               ("actions", VObj [("onEnter", VStr "notAFunction")]) ]) ]) ].

(** A machine whose states carry a [length]: [_.each] takes [states] for an
    array without elements and [init] inspects nothing. *)
Definition uninspected : value :=
  VObj [ ("startState", VStr "A");
         ("states", VObj [
            ("A", VObj [
               ("events", VObj [
                  ("go", VObj [ ("toState", VStr "A");
                                ("onBefore", VStr "notAFunction") ]) ]) ]);
            ("length", VNum 0) ]) ].

(** As [uninspected], with an event that leads to a state defined as
    [null]. *)
Definition nullTarget : value :=
  VObj [ ("startState", VStr "A");
         ("states", VObj [
            ("A", VObj [("events", VObj [("go", ev "B")])]);
            ("B", VNull);
            ("length", VNum 0) ]) ].

(** ** Vocabulary of the statements *)

(** Some validation flag of [init] is raised. *)
Definition anyInvalid (l : locals) : bool :=
  hasInvalidStartState l || hasInvalidStateNodes l || hasInvalidEventNode l
  || hasInvalidToState l || hasInvalidActionFunction l
  || hasInvalidTransitionFunction l.

(** One of the three flags that the inspection of an event raises. *)
Definition eventTrouble (l : locals) : bool :=
  hasInvalidEventNode l || hasInvalidToState l
  || hasInvalidTransitionFunction l.

(** [initStatus] is [OK] exactly while no flag is raised. *)
Definition coherent (s : initState) : Prop :=
  initStatus (snd s) = OK <-> anyInvalid (fst s) = false.

(** Once an action function was found invalid, [initStatus] holds its code
    as long as no event raised a flag. *)
Definition actionCodeKept (s : initState) : Prop :=
  hasInvalidActionFunction (fst s) = true ->
  eventTrouble (fst s) = false ->
  initStatus (snd s) = ERROR_INVALID_ACTION_FUNCTION.

Definition flagsGrow (l l' : locals) : Prop :=
  (hasInvalidStartState l = true -> hasInvalidStartState l' = true) /\
  (hasInvalidStateNodes l = true -> hasInvalidStateNodes l' = true) /\
  (hasInvalidEventNode l = true -> hasInvalidEventNode l' = true) /\
  (hasInvalidToState l = true -> hasInvalidToState l' = true) /\
  (hasInvalidTransitionFunction l = true ->
   hasInvalidTransitionFunction l' = true) /\
  (hasInvalidActionFunction l = true -> hasInvalidActionFunction l' = true).

(** How the state of [init] may change while the states are inspected. *)
Definition evolves (s s' : initState) : Prop :=
  config (snd s') = config (snd s) /\
  current (snd s') = current (snd s) /\
  isInternalValid (snd s') = isInternalValid (snd s) /\
  flagsGrow (fst s) (fst s') /\
  (coherent s -> coherent s') /\
  (actionCodeKept s -> actionCodeKept s').

(** A callback slot that [init] accepts: what is read there is falsy or a
    function. *)
Definition callable (slot : outcome value) : Prop :=
  forall f, slot = Ret f -> truthy f = true -> isFunction f = true.

(** [(state['actions'] || {})[which]]. *)
Definition stateAction (state : value) (which : string) : outcome value :=
  match get state "actions" with
  | Throw e => Throw e
  | Ret actions => get (orElse actions (VObj [])) which
  end.

(** An event node that passes the inspection of lines 110-135. *)
Definition validEvent (states event : value) : Prop :=
  truthy event = true /\
  (exists T target,
     get event "toState" = Ret (VStr T) /\
     get states T = Ret target /\ truthy target = true) /\
  callable (get event "onBefore") /\
  callable (get event "onAfter").

(** A state that passes the inspection of lines 87-138: when [events] has
    a key, the actions pass and so does every event that [_.each] visits. *)
Definition validState (states state : value) : Prop :=
  exists events,
    get state "events" = Ret events /\
    (forall name event, In (name, event) (entries events) ->
                        validEvent states event) /\
    (keys events <> [] ->
     callable (stateAction state "onEnter") /\
     callable (stateAction state "onExit")).

(** A state whose action functions lines 94-106 inspect and reject: its
    [events] has a key, and it has a truthy [onEnter] or [onExit] that is
    not a function. *)
Definition rejectedActions (state : value) : Prop :=
  exists events actions f,
    get state "events" = Ret events /\ keys events <> [] /\
    get state "actions" = Ret actions /\
    (get actions "onEnter" = Ret f \/ get actions "onExit" = Ret f) /\
    truthy f = true /\ isFunction f = false.

(** An object that [_.each] walks by its keys: it has no [length] that
    makes it array-like. *)
Definition keyed (v : value) : bool :=
  match v with
  | VObj _ => negb (isArrayLike v)
  | _ => false
  end.

(** [config.states[current].events], the mapping [canHandleEvent] tests. *)
Definition currentEvents (m : fsm) : outcome value :=
  match get (config m) "states" with
  | Throw e => Throw e
  | Ret states =>
      match get states (toKey (current m)) with
      | Throw e => Throw e
      | Ret state => get state "events"
      end
  end.

(** [name] is a key of the events of the current state, and the node
    defined there has [toState] equal to [T]. *)
Definition registered (m : fsm) (name : string) (T : value) : Prop :=
  exists events eventNode,
    currentEvents m = Ret events /\
    ownProperty events name = Some eventNode /\
    get eventNode "toState" = Ret T.

(** [T] is a key of [config.states], and what is defined there is neither
    [null] nor [undefined]. *)
Definition declared (m : fsm) (T : value) : Prop :=
  exists states target,
    get (config m) "states" = Ret states /\
    ownProperty states (toKey T) = Some target /\ nullish target = false.

(** [(config.states[stateName]['actions'] || {})[which]] (lines 171-174). *)
Definition action (m : fsm) (stateName : value) (which : string)
  : outcome value :=
  match get (config m) "states" with
  | Throw e => Throw e
  | Ret states =>
      match get states (toKey stateName) with
      | Throw e => Throw e
      | Ret state => stateAction state which
      end
  end.

(** [config.states[current].events[name][which]]: a field of the node of
    event [name] (lines 166, 177, 185). *)
Definition transition (m : fsm) (name which : string) : outcome value :=
  match currentEvents m with
  | Throw e => Throw e
  | Ret events =>
      match get events name with
      | Throw e => Throw e
      | Ret eventNode => get eventNode which
      end
  end.

(** The calls that [_.isFunction(f) && f()] makes while [current] is [cur]. *)
Definition invoked (f : value) (cur : value) : list call :=
  match f with
  | VFun label => [Invoked label cur]
  | _ => []
  end.

(** The machines a program can hold: the one [newFSM] returns, and what
    calls of [handleEvent] make of it. *)
Inductive reachable (userConfig : value) : fsm -> Prop :=
| reach_new m :
    newFSM userConfig = Ret m -> reachable userConfig m
| reach_handle m name r m' t :
    reachable userConfig m ->
    handleEvent name m = Ret (r, m', t) ->
    reachable userConfig m'.

(** ** Vocabulary of the further properties *)

(** The computation [c] returns from state [s]: it does not throw. *)
Definition returns {S A} (c : M S A) (s : S) : Prop :=
  exists a s' t, c s = Ret (a, s', t).

(** A configuration without defects: [states] has a key,
    [states[startState]] is truthy and every state passes. *)
Definition wellFormed (cfg : value) : Prop :=
  exists states cs start,
    get cfg "states" = Ret states /\ keys states <> [] /\
    get cfg "startState" = Ret cs /\
    get states (toKey (if isString cs then cs else VNull)) = Ret start /\
    truthy start = true /\
    forall name state, In (name, state) (entries states) ->
                       validState states state.

(** The codes that [init] assigns to [initStatus], and [OK]. *)
Definition constructionCode (c : statusCode) : bool :=
  match c with
  | ERROR_ILLEGAL_EVENT | ERROR_IMPROPERLY_INITIALIZED => false
  | _ => true
  end.

(** The light switch, started in a state it does not have. *)
Definition lostStart : value :=
  VObj [ ("startState", VStr "Standby");
         ("states", VObj [
            ("Off", VObj [("events", VObj [("turnOn", ev "On")])]);
            ("On", VObj [("events", VObj [("turnOff", ev "Off")])]) ]) ].

(** A machine that ends in a state without events. *)
Definition oneWay : value :=
  VObj [ ("startState", VStr "Busy");
         ("states", VObj [
            ("Busy", VObj [("events", VObj [("finish", ev "Done")])]);
            ("Done", VObj [("events", VObj [])]) ]) ].

(** ** Reasoning about computations in [M] *)

Lemma bind_Ret {S A B} (c : M S A) (k : A -> M S B) s b s2 t :
  bind c k s = Ret (b, s2, t) ->
  exists a s1 t1 t2,
    c s = Ret (a, s1, t1) /\ k a s1 = Ret (b, s2, t2) /\ t = (t1 ++ t2)%list.
Proof.
  unfold bind. destruct (c s) as [[[a s1] t1]|e]; [|discriminate].
  destruct (k a s1) as [[[b' s2'] t2]|e] eqn:Hk; [|discriminate].
  intros H. inversion H; subst. exists a, s1, t1, t2. auto.
Qed.

Lemma lift_Ret {S A} (o : outcome A) (s : S) a s' t :
  lift o s = Ret (a, s', t) -> o = Ret a /\ s' = s /\ t = [].
Proof. unfold lift. destruct o; intros H; inversion H; auto. Qed.

Lemma reads_Ret {S A} (f : S -> A) (s : S) a s' t :
  reads f s = Ret (a, s', t) -> a = f s /\ s' = s /\ t = [].
Proof. unfold reads. intros H; inversion H; auto. Qed.

Lemma modify_Ret {S} (f : S -> S) (s : S) a s' t :
  modify f s = Ret (a, s', t) -> s' = f s /\ t = [].
Proof. unfold modify. intros H; inversion H; auto. Qed.

Lemma ret_Ret {S A} (x : A) (s : S) a s' t :
  ret x s = Ret (a, s', t) -> a = x /\ s' = s /\ t = [].
Proof. unfold ret. intros H; inversion H; auto. Qed.

(** Break a hypothesis [c s = Ret _] down along the structure of [c]. *)
Ltac minv :=
  repeat match goal with
  | H : bind _ _ _ = Ret _ |- _ =>
      let a := fresh "a" in let s1 := fresh "s" in
      let t1 := fresh "t" in let t2 := fresh "t" in
      let H1 := fresh "H" in let H2 := fresh "H" in
      apply bind_Ret in H; destruct H as (a & s1 & t1 & t2 & H1 & H2 & ->)
  | H : lift _ _ = Ret _ |- _ =>
      apply lift_Ret in H; destruct H as (? & -> & ->)
  | H : reads _ _ = Ret _ |- _ =>
      apply reads_Ret in H; destruct H as (-> & -> & ->)
  | H : modify _ _ = Ret _ |- _ =>
      apply modify_Ret in H; destruct H as (-> & ->)
  | H : ret _ _ = Ret _ |- _ =>
      apply ret_Ret in H; destruct H as (? & -> & ->)
  | H : flag _ _ = Ret _ |- _ => unfold flag in H
  | H : assign _ _ = Ret _ |- _ => unfold assign in H
  | H : Throw _ = Ret _ |- _ => discriminate H
  end.

(** A property that every step of a loop keeps is kept by the loop. *)
Lemma forEach_preserves {S} (I : S -> Prop)
      (f : value -> string -> M S unit) :
  (forall v k s u s' t, f v k s = Ret (u, s', t) -> I s -> I s') ->
  forall l s u s' t, forEach f l s = Ret (u, s', t) -> I s -> I s'.
Proof.
  intros Hf l. induction l as [|[k v] rest IH]; simpl; intros s u s' t H Hs.
  - minv. assumption.
  - minv. eapply IH; eauto.
Qed.

(** The loops of [init] call no callback. *)
Lemma forEach_silent {S} (f : value -> string -> M S unit) :
  (forall v k s u s' t, f v k s = Ret (u, s', t) -> t = []) ->
  forall l s u s' t, forEach f l s = Ret (u, s', t) -> t = [].
Proof.
  intros Hf l. induction l as [|[k v] rest IH]; simpl; intros s u s' t H.
  - minv. reflexivity.
  - minv. erewrite (Hf _ _ _ _ _ _ H0), (IH _ _ _ _ H1). reflexivity.
Qed.

(** What a loop establishes about each element when a monotone "tainted"
    mark is still clear at its end. *)
Lemma forEach_clear {S} (tainted : S -> Prop) (good : string -> value -> Prop)
      (f : value -> string -> M S unit) :
  (forall v k s u s' t, f v k s = Ret (u, s', t) ->
     ~ tainted s' -> ~ tainted s /\ good k v) ->
  forall l s u s' t, forEach f l s = Ret (u, s', t) ->
     ~ tainted s' -> ~ tainted s /\ forall k v, In (k, v) l -> good k v.
Proof.
  intros Hf l. induction l as [|[k v] rest IH]; simpl; intros s u s' t H Hc.
  - minv. split; [assumption | intros ? ? []].
  - minv. destruct (IH _ _ _ _ H1 Hc) as [Hc1 Hrest].
    destruct (Hf _ _ _ _ _ _ H0 Hc1) as [Hc0 Hgood].
    split; [assumption|]. intros k' v' [E|Hin]; [inversion E; subst|]; auto.
Qed.

(** ** Reasoning about values *)

Lemma get_Ret v key x :
  get v key = Ret x -> nullish v = false /\ x = prop v key.
Proof.
  unfold get. destruct (nullish v); [discriminate|].
  intros H; inversion H; auto.
Qed.

Lemma get_prop v key : nullish v = false -> get v key = Ret (prop v key).
Proof. unfold get. intros ->. reflexivity. Qed.

Lemma get_Throw v key e : get v key = Throw e -> nullish v = true.
Proof. unfold get. destruct (nullish v); [reflexivity|discriminate]. Qed.

Lemma truthy_not_nullish v : truthy v = true -> nullish v = false.
Proof. destruct v; simpl; congruence. Qed.

(** A property that no prototype has is [undefined] on a value that is
    falsy. *)
Lemma falsy_prop v key :
  truthy v = false ->
  existsb (String.eqb key) (stringPrototype ++ numberPrototype
                            ++ objectPrototype ++ ["length"]) = false ->
  prop v key = VUndef.
Proof.
  intros Hv Hk.
  assert (Hs : existsb (String.eqb key) stringPrototype = false /\
               existsb (String.eqb key) numberPrototype = false /\
               existsb (String.eqb key) objectPrototype = false /\
               String.eqb key "length" = false).
  { rewrite !existsb_app in Hk. cbn [existsb] in Hk.
    rewrite orb_false_r in Hk. rewrite !orb_false_iff in Hk. tauto. }
  destruct Hs as (H1 & H2 & H3 & H4).
  destruct v as [| |b|n|s|l|p|pl]; try discriminate Hv;
    unfold prop, inherited; cbn [ownProperty prototypeOf];
    try reflexivity.
  - rewrite H3. reflexivity.
  - rewrite existsb_app, H2, H3. reflexivity.
  - destruct s; [|discriminate Hv].
    change (own (stringProps "") key)
      with (if String.eqb "length" key then Some (VNum 0) else None).
    rewrite String.eqb_sym, H4, existsb_app, H1, H3. reflexivity.
Qed.

Lemma keys_short v : (length (keys v) <? 1)%nat = true -> keys v = [].
Proof. destruct (keys v); [reflexivity | discriminate]. Qed.

(** What has no key is not visited. *)
Lemma keys_entries v : keys v = [] -> entries v = [].
Proof.
  destruct v as [| |b|n|s|l|p|pl]; try reflexivity.
  - destruct s; [reflexivity | discriminate].
  - destruct p; [reflexivity | discriminate].
Qed.

Lemma entries_keys v : (length (keys v) <? 1)%nat = true -> entries v = [].
Proof. intros H. apply keys_entries, keys_short, H. Qed.

Lemma falsy_entries v : truthy v = false -> entries v = [].
Proof.
  destruct v as [| |b|n|s|l|p|pl]; try discriminate; try reflexivity.
  destruct s; [reflexivity | discriminate].
Qed.

Lemma keys_truthy v : keys v <> [] -> truthy v = true.
Proof.
  destruct v as [| |b|n|s|l|p|pl]; simpl; try congruence.
  destruct s; simpl; [congruence | reflexivity].
Qed.

(** ** What [init] establishes *)

Ltac mcase :=
  repeat (minv; cbv zeta in *;
    match goal with
    | H : when ?c _ _ = Ret _ |- _ => unfold when in H
    | H : (if ?c then _ else _) _ = Ret _ |- _ => destruct c eqn:?
    end); minv.

Ltac flags :=
  unfold evolves, coherent, actionCodeKept, flagsGrow, anyInvalid,
    eventTrouble, set_hasInvalidStartState, set_hasInvalidStateNodes,
    set_hasInvalidEventNode, set_hasInvalidToState,
    set_hasInvalidTransitionFunction, set_hasInvalidActionFunction,
    set_initStatus, set_current, set_isInternalValid in *;
  simpl in *.

Ltac bools :=
  repeat match goal with
  | b : bool |- _ => destruct b
  end;
  simpl in *; repeat split; intros; try discriminate; try congruence;
  try tauto.

Lemma evolves_refl s : evolves s s.
Proof. unfold evolves, flagsGrow. tauto. Qed.

Lemma evolves_trans s1 s2 s3 : evolves s1 s2 -> evolves s2 s3 -> evolves s1 s3.
Proof. unfold evolves, flagsGrow. intuition congruence. Qed.

Lemma inspectEvent_evolves states event name s u s' t :
  inspectEvent states event name s = Ret (u, s', t) -> evolves s s'.
Proof.
  unfold inspectEvent. intros H. mcase.
  all: destruct s as [[] []]; flags.
  all: bools.
  all: match goal with H : _ <-> _ |- _ => destruct H as [H1 H2] end;
    try (specialize (H2 eq_refl)); try discriminate; auto.
Qed.

Lemma inspectEvent_silent states event name s u s' t :
  inspectEvent states event name s = Ret (u, s', t) -> t = [].
Proof. unfold inspectEvent. intros H. mcase; reflexivity. Qed.

Lemma falsy_or_function f :
  truthy f && negb (isFunction f) = false ->
  truthy f = true -> isFunction f = true.
Proof. destruct (truthy f), (isFunction f); simpl; congruence. Qed.

Lemma inspectEvent_clear states event name s u s' t :
  inspectEvent states event name s = Ret (u, s', t) ->
  anyInvalid (fst s') <> true ->
  anyInvalid (fst s) <> true /\ validEvent states event.
Proof.
  unfold inspectEvent. intros H. mcase.
  all: destruct s as [[] []]; flags.
  all: try (intros Hc; exfalso; apply Hc; bools; fail).
  all: intros Hc; split; [assumption|].
  all: unfold validEvent, callable.
  all: rewrite negb_false_iff in *; split; [assumption|].
  all: match goal with H : isString ?x = true |- _ =>
         destruct x; try discriminate H; simpl in * end.
  all: split; [eauto|].
  all: split; intros f Hf; rewrite Hf in *;
    match goal with H : Ret f = Ret _ |- _ =>
      inversion H; subst; clear H end;
    apply falsy_or_function; assumption.
Qed.

Lemma inspectActions_evolves state s u s' t :
  inspectActions state s = Ret (u, s', t) -> evolves s s'.
Proof.
  unfold inspectActions. intros H. mcase; try apply evolves_refl.
  all: destruct s as [[] []]; flags; bools.
  all: match goal with H : _ <-> _ |- _ => destruct H as [H1' H2'] end;
    try (specialize (H2' eq_refl)); try discriminate; auto.
Qed.

Lemma inspectActions_silent state s u s' t :
  inspectActions state s = Ret (u, s', t) -> t = [].
Proof. unfold inspectActions. intros H. mcase; reflexivity. Qed.

Lemma inspectActions_rejects state actions f s u s' t :
  inspectActions state s = Ret (u, s', t) ->
  get state "actions" = Ret actions ->
  get actions "onEnter" = Ret f \/ get actions "onExit" = Ret f ->
  truthy f = true -> isFunction f = false ->
  hasInvalidActionFunction (fst s') = true.
Proof.
  unfold inspectActions. intros H Hac Hf Htr Hfn.
  apply bind_Ret in H. destruct H as (a & s1 & t1 & t2 & H1 & H2 & ->).
  minv. rewrite Hac in H. inversion H; subst a; clear H.
  assert (Hta : truthy actions = true).
  { destruct (truthy actions) eqn:E; [reflexivity|].
    destruct Hf as [Hf|Hf]; apply get_Ret in Hf; destruct Hf as [_ ->];
      rewrite falsy_prop in Htr by (assumption || reflexivity);
      discriminate. }
  rewrite Hta in H2. unfold when in H2. mcase.
  all: destruct s as [[] []]; flags; try reflexivity.
  all: destruct Hf as [Hf|Hf]; rewrite Hf in *;
    repeat match goal with H : Ret _ = Ret _ |- _ =>
      inversion H; subst; clear H end;
    rewrite Htr, Hfn in *; simpl in *; try discriminate.
  all: bools.
Qed.

Lemma inspectState_evolves states state stateName s u s' t :
  inspectState states state stateName s = Ret (u, s', t) -> evolves s s'.
Proof.
  unfold inspectState, each. intros H.
  apply bind_Ret in H. destruct H as (events & s1 & t1 & t2 & H1 & H2 & ->).
  minv. cbv zeta in H2.
  destruct (length (keys events) <? 1)%nat.
  - minv. apply evolves_refl.
  - apply bind_Ret in H2. destruct H2 as (? & s2 & ? & ? & Ha & He & ->).
    eapply evolves_trans; [eapply inspectActions_evolves; eassumption|].
    eapply (forEach_preserves (evolves s2)); [| eassumption | apply evolves_refl].
    intros. eapply evolves_trans; [eassumption|].
    eapply inspectEvent_evolves; eassumption.
Qed.

Lemma inspectState_silent states state stateName s u s' t :
  inspectState states state stateName s = Ret (u, s', t) -> t = [].
Proof.
  unfold inspectState, each. intros H.
  apply bind_Ret in H. destruct H as (events & s1 & t1 & t2 & H1 & H2 & ->).
  minv. cbv zeta in H2.
  destruct (length (keys events) <? 1)%nat.
  - minv. reflexivity.
  - apply bind_Ret in H2. destruct H2 as (? & s2 & ? & ? & Ha & He & ->).
    apply inspectActions_silent in Ha. subst.
    eapply forEach_silent in He; [subst; reflexivity|].
    intros. eapply inspectEvent_silent; eassumption.
Qed.

Lemma inspectActions_clear state s u s' t :
  inspectActions state s = Ret (u, s', t) ->
  anyInvalid (fst s') <> true ->
  callable (stateAction state "onEnter") /\
  callable (stateAction state "onExit").
Proof.
  unfold inspectActions. intros H. mcase.
  all: destruct s as [[] []]; flags.
  all: try (intros Hc; exfalso; apply Hc; bools; fail).
  all: intros _; unfold callable, stateAction, orElse.
  all: match goal with H : get _ "actions" = _ |- _ => rewrite H end.
  all: match goal with H : truthy _ = _ |- _ => rewrite H end.
  all: split; intros f Hf;
    [ try (inversion Hf; subst f; discriminate)
    | try (inversion Hf; subst f; discriminate) ].
  all: match goal with
       | Hf : get ?a ?k = Ret ?f, H : get ?a ?k = Ret ?g |- _ =>
           rewrite Hf in H; inversion H; subst; clear H
       end;
    apply falsy_or_function; assumption.
Qed.

Lemma inspectState_clear states state stateName s u s' t :
  inspectState states state stateName s = Ret (u, s', t) ->
  anyInvalid (fst s') <> true ->
  anyInvalid (fst s) <> true /\ validState states state.
Proof.
  unfold inspectState, each. intros H Hc.
  apply bind_Ret in H. destruct H as (events & s1 & t1 & t2 & H1 & H2 & ->).
  minv. cbv zeta in H2. unfold validState.
  destruct (length (keys events) <? 1)%nat eqn:Hlen.
  - minv. split; [assumption|]. exists events. split; [assumption|].
    rewrite (entries_keys _ Hlen).
    split; [intros ? ? [] | intros Hk; elim Hk; apply keys_short, Hlen].
  - apply bind_Ret in H2. destruct H2 as (? & s2 & ? & ? & Ha & He & ->).
    destruct (forEach_clear (fun s => anyInvalid (fst s) = true)
                (fun _ event => validEvent states event)
                (inspectEvent states) (inspectEvent_clear states)
                _ _ _ _ _ He Hc) as [Hc2 Hall].
    pose proof (inspectActions_clear _ _ _ _ _ Ha Hc2) as Hact.
    split; [|exists events; auto].
    apply inspectActions_evolves in Ha.
    destruct Ha as (_ & _ & _ & Hg & _). revert Hc2 Hg.
    destruct s as [[] ?], s2 as [[] ?]; flags. intros Hc2 Hg Hs.
    apply Hc2. bools.
Qed.

Lemma inspectState_rejects states state stateName s u s' t :
  inspectState states state stateName s = Ret (u, s', t) ->
  rejectedActions state ->
  hasInvalidActionFunction (fst s') = true.
Proof.
  unfold inspectState, each. intros H (events' & actions & f & Hev & Hne & Hac & Hf & Htr & Hfn).
  apply bind_Ret in H. destruct H as (events & s1 & t1 & t2 & H1 & H2 & ->).
  minv. cbv zeta in H2. rewrite Hev in H. inversion H; subst events'; clear H.
  destruct (length (keys events) <? 1)%nat eqn:Hlen.
  - apply keys_short in Hlen. contradiction.
  - apply bind_Ret in H2. destruct H2 as (? & s2 & ? & ? & Ha & He & ->).
    pose proof (inspectActions_rejects _ _ _ _ _ _ _ Ha Hac Hf Htr Hfn) as Hflag.
    revert Hflag.
    eapply (forEach_preserves
              (fun s => hasInvalidActionFunction (fst s2) = true ->
                        hasInvalidActionFunction (fst s) = true));
      [| eassumption | auto].
    intros v k s3 u3 s4 t4 Hstep Hi Hf2.
    apply inspectEvent_evolves in Hstep.
    destruct Hstep as (_ & _ & _ & Hg & _). apply Hg. auto.
Qed.

Lemma forEach_marks {S} (mark : S -> Prop) (hit : string -> value -> Prop)
      (f : value -> string -> M S unit) :
  (forall v k s u s' t, f v k s = Ret (u, s', t) -> mark s -> mark s') ->
  (forall v k s u s' t, f v k s = Ret (u, s', t) -> hit k v -> mark s') ->
  forall l s u s' t, forEach f l s = Ret (u, s', t) ->
    (exists k v, In (k, v) l /\ hit k v) -> mark s'.
Proof.
  intros Hkeep Hhit l. induction l as [|[k v] rest IH]; simpl;
    intros s u s' t H (k' & v' & Hin & Hh).
  - destruct Hin.
  - apply bind_Ret in H. destruct H as (? & s1 & ? & ? & H1 & H2 & ->).
    destruct Hin as [E|Hin].
    + inversion E; subst k' v'.
      eapply (forEach_preserves mark); eauto.
    + eapply IH; eauto.
Qed.

Lemma allClear_anyInvalid l :
  negb (hasInvalidStartState l) && negb (hasInvalidStateNodes l)
  && negb (hasInvalidEventNode l) && negb (hasInvalidToState l)
  && negb (hasInvalidActionFunction l)
  && negb (hasInvalidTransitionFunction l) = negb (anyInvalid l).
Proof. destruct l; flags; bools. Qed.

(** What [init] establishes. *)
Lemma runInit_spec userConfig l m :
  runInit userConfig = Ret (l, m) ->
  config m = config (initialClosure userConfig) /\
  coherent (l, m) /\
  actionCodeKept (l, m) /\
  isInternalValid m = negb (anyInvalid l) /\
  (anyInvalid l = false ->
   exists states,
     get (config m) "states" = Ret states /\
     (exists state, get states (toKey (current m)) = Ret state /\
                    truthy state = true) /\
     forall name state, In (name, state) (entries states) ->
                        validState states state) /\
  (forall states name state,
     get (config m) "states" = Ret states ->
     In (name, state) (entries states) ->
     rejectedActions state -> hasInvalidActionFunction l = true).
Proof.
  unfold runInit. destruct (init (noError, initialClosure userConfig))
    as [[[u s] t]|e] eqn:Hinit; [|discriminate].
  intros E; inversion E; subst s; clear E.
  unfold init in Hinit.
  apply bind_Ret in Hinit. destruct Hinit as (cfg & s1 & ? & ? & Hcfg & H & _).
  apply reads_Ret in Hcfg. destruct Hcfg as (-> & -> & ->).
  apply bind_Ret in H. destruct H as (states & s1 & ? & ? & Hst & H & _).
  apply lift_Ret in Hst. destruct Hst as (Hst & -> & ->).
  apply bind_Ret in H. destruct H as (? & sv & ? & ? & Hbody & H & _).
  apply bind_Ret in H. destruct H as (l' & s1 & ? & ? & Hl & H & _).
  apply reads_Ret in Hl. destruct Hl as (-> & -> & ->).
  unfold assign in H. apply modify_Ret in H. destruct H as (E & _).
  inversion E; subst l m; clear E. simpl fst in *. simpl snd in *.
  rewrite allClear_anyInvalid. simpl in Hst.
  assert (Hgoal :
    config (snd sv) = config (initialClosure userConfig) /\
    coherent sv /\ actionCodeKept sv /\
    (anyInvalid (fst sv) = false ->
     (exists state, get states (toKey (current (snd sv))) = Ret state /\
                    truthy state = true) /\
     forall name state, In (name, state) (entries states) ->
                        validState states state) /\
    (forall name state, In (name, state) (entries states) ->
       rejectedActions state -> hasInvalidActionFunction (fst sv) = true)).
  { destruct (truthy states) eqn:Hts.
    - apply bind_Ret in Hbody.
      destruct Hbody as (cs & s1 & ? & ? & Hcs & Hbody & _).
      apply lift_Ret in Hcs. destruct Hcs as (Hcs & -> & ->).
      apply bind_Ret in Hbody.
      destruct Hbody as (start & s1 & ? & ? & Hsv & Hbody & _).
      apply lift_Ret in Hsv. destruct Hsv as (Hsv & -> & ->).
      apply bind_Ret in Hbody.
      destruct Hbody as (? & s1 & ? & ? & Hstart & Hbody & _).
      apply bind_Ret in Hbody.
      destruct Hbody as (? & s2 & ? & ? & Hnone & Hloop & _).
      unfold each in Hloop.
      assert (Hpre :
        config (snd s2) = config (initialClosure userConfig) /\
        coherent s2 /\ hasInvalidActionFunction (fst s2) = false /\
        (anyInvalid (fst s2) = false ->
         exists state, get states (toKey (current (snd s2))) = Ret state /\
                       truthy state = true)).
      { unfold when in Hnone.
        destruct (truthy start) eqn:Htr; mcase; flags; bools; eauto. }
      destruct Hpre as (Hc2 & Hco2 & Hna2 & Hcur2).
      assert (Hev : evolves s2 sv).
      { eapply (forEach_preserves (evolves s2));
          [| eassumption | apply evolves_refl].
        intros. eapply evolves_trans; [eassumption|].
        eapply inspectState_evolves; eassumption. }
      destruct Hev as (Hec & Hecur & _ & _ & Heco & Heack).
      split; [congruence|]. split; [auto|].
      split; [apply Heack; unfold actionCodeKept; congruence|].
      split.
      + intros Hclear.
        assert (Hc : anyInvalid (fst sv) <> true) by congruence.
        destruct (forEach_clear (fun s => anyInvalid (fst s) = true)
                    (fun _ state => validState states state)
                    (inspectState states) (inspectState_clear states)
                    _ _ _ _ _ Hloop Hc) as [Hc0 Hall].
        split; [|exact Hall]. rewrite Hecur. apply Hcur2.
        destruct (anyInvalid (fst s2)); congruence.
      + intros name state Hin Hrej.
        eapply (forEach_marks
                  (fun s => hasInvalidActionFunction (fst s) = true)
                  (fun _ state => rejectedActions state));
          [| | eassumption | eauto].
        * intros v k s3 u3 s4 t4 Hstep Hm.
          apply inspectState_evolves in Hstep.
          destruct Hstep as (_ & _ & _ & Hg & _). apply Hg. assumption.
        * intros v k s3 u3 s4 t4 Hstep Hh.
          eapply inspectState_rejects; eassumption.
    - assert (He : entries states = []) by (apply falsy_entries, Hts).
      rewrite He. mcase. flags.
      repeat split; try discriminate; intros; try contradiction. }
  destruct Hgoal as (G1 & G2 & G3 & G4 & G5).
  destruct sv as [l m]. simpl in *.
  split; [assumption|]. split; [exact G2|]. split; [exact G3|].
  split; [reflexivity|]. split.
  - intros Hclear. exists states. rewrite G1. split; [assumption|].
    apply G4. assumption.
  - intros states0 name state Hs0. rewrite G1 in Hs0. simpl in Hs0.
    rewrite Hst in Hs0. inversion Hs0; subst states0. apply G5.
Qed.

(** ** What the public API does *)

Lemma own_In props key v : own props key = Some v -> In (key, v) props.
Proof.
  induction props as [|[k x] rest IH]; simpl; [discriminate|].
  destruct (String.eqb k key) eqn:E.
  - apply String.eqb_eq in E. intros H; inversion H; subst. left; reflexivity.
  - intros H. right. auto.
Qed.

(** A key is a path of length one. *)
Lemma own_has v key x : ownProperty v key = Some x -> has v key = true.
Proof.
  intros E.
  assert (Hn : nullish v = false) by (destruct v; try discriminate E; reflexivity).
  unfold has, castPath, isKey, inOp, hasOwn.
  rewrite Hn, E, !orb_true_r. cbn [ownPath]. rewrite E. reflexivity.
Qed.

(** What [_.has] finds and is neither [null] nor [undefined] is a key. *)
Lemma has_own v key :
  has v key = true -> nullish (prop v key) = false ->
  ownProperty v key = Some (prop v key).
Proof.
  unfold has, prop, castPath, isKey, inOp, hasOwn.
  destruct (ownProperty v key) eqn:E; [reflexivity|].
  unfold inherited. destruct (existsb (String.eqb key) (prototypeOf v)).
  - rewrite !orb_true_r. cbn [ownPath]. rewrite E, andb_false_r. discriminate.
  - intros _ H. discriminate H.
Qed.

(** A name without dot and bracket is looked up as a key. *)
Lemma has_plain v key : isDeepProp key = false -> has v key = hasOwn v key.
Proof.
  intros Hd. unfold has, castPath, isKey, hasOwn. rewrite Hd.
  rewrite orb_true_r. cbn [negb orb ownPath].
  destruct (ownProperty v key) eqn:E.
  - destruct v; try discriminate E; reflexivity.
  - apply andb_false_r.
Qed.

Lemma has_not_nullish v key : has v key = true -> nullish v = false.
Proof. unfold has. destruct (nullish v); [discriminate | reflexivity]. Qed.

Lemma own_get v key x : ownProperty v key = Some x -> get v key = Ret x.
Proof.
  intros E. unfold get, prop. rewrite E.
  destruct v; try discriminate E; reflexivity.
Qed.

Lemma own_app l1 l2 key :
  own (l1 ++ l2) key =
  match own l1 key with Some x => Some x | None => own l2 key end.
Proof.
  induction l1 as [|[k x] l1 IH]; [reflexivity|]. simpl.
  destruct (String.eqb k key); [reflexivity | exact IH].
Qed.

Lemma own_combine ks vs key :
  ~ In key ks -> own (combine ks vs) key = None.
Proof.
  revert vs. induction ks as [|k ks IH]; intros [|v vs] Hn; try reflexivity.
  simpl. destruct (String.eqb k key) eqn:E.
  - apply String.eqb_eq in E. elim Hn. left. exact E.
  - apply IH. intros Hin. apply Hn. right. exact Hin.
Qed.

(** The key of an index starts with a digit. *)
Lemma indexKey_digit i :
  exists c rest, indexKey i = String c rest /\ isDigit c = true.
Proof.
  unfold indexKey, NilZero.string_of_uint.
  destruct (Nat.to_uint i); simpl; eauto.
Qed.

(** The keys of a string are its indices and [length]. *)
Lemma own_string s key :
  match key with
  | String c _ => isDigit c = false
  | EmptyString => True
  end ->
  own (stringProps s) key = if String.eqb "length" key then
                              Some (VNum (Z.of_nat (String.length s)))
                            else None.
Proof.
  intros Hk. unfold stringProps. rewrite own_app, own_combine; [reflexivity|].
  intros Hin. apply in_map_iff in Hin. destruct Hin as (i & Hi & _).
  destruct (indexKey_digit i) as (c & rest & Hc & Hd).
  subst key. rewrite Hc in Hk. congruence.
Qed.

(** Only an object has an events mapping. *)
Lemma events_own state events :
  get state "events" = Ret events -> nullish events = false ->
  ownProperty state "events" = Some events /\
  exists props, state = VObj props.
Proof.
  intros H Hn. apply get_Ret in H. destruct H as [_ ->].
  unfold prop, inherited in *.
  destruct state as [| |b|n|s|l|p|pl]; cbn [ownProperty] in *;
    try discriminate Hn.
  - rewrite own_string in * by reflexivity. discriminate Hn.
  - destruct (own p "events"); [eauto | discriminate Hn].
Qed.

(** A value that has events is an own property of the object it was read
    from, and that object is not a string or a function: nothing inherited
    has an events mapping. *)
Lemma state_with_events_is_own states key state events :
  get states key = Ret state ->
  get state "events" = Ret events -> nullish events = false ->
  exists props, states = VObj props /\ own props key = Some state.
Proof.
  intros Hs He Hn.
  destruct (events_own _ _ He Hn) as (Hown & sp & ->).
  apply get_Ret in Hs. destruct Hs as [_ Hs]. unfold prop in Hs.
  destruct (ownProperty states key) as [x|] eqn:E.
  - subst x. destruct states as [| |b|n|s|l|p|pl]; cbn [ownProperty] in E;
      try discriminate E.
    + exfalso. unfold stringProps in E. rewrite own_app in E.
      destruct (own (combine _ _) key) eqn:E1.
      * clear - E E1. inversion E; subst; clear E.
        revert E1. generalize (map indexKey (seq 0 (String.length s))).
        unfold chars. generalize (list_ascii_of_string s).
        intros l. induction l as [|c l IH]; intros [|k ks]; simpl;
          try discriminate.
        destruct (String.eqb k key); [discriminate | apply IH].
      * revert E. cbn [own]. destruct (String.eqb "length" key); discriminate.
    + exfalso. revert E. unfold functionProps. cbn [own].
      repeat match goal with
      | |- (if ?c then _ else _) = _ -> _ => destruct c; [discriminate|]
      end. discriminate.
    + eauto.
    + exfalso. revert E. destruct (String.eqb key "constructor"); discriminate.
  - exfalso. revert Hs. unfold inherited.
    destruct (existsb _ _); [destruct (String.eqb _ _)|];
      intros Hs; inversion Hs; subst; discriminate Hown.
Qed.

Lemma currentEvents_Ret m events :
  currentEvents m = Ret events ->
  exists states state,
    get (config m) "states" = Ret states /\
    get states (toKey (current m)) = Ret state /\
    get state "events" = Ret events.
Proof.
  unfold currentEvents.
  destruct (get (config m) "states") as [states|]; [|discriminate].
  destruct (get states (toKey (current m))) as [state|] eqn:Hs; [|discriminate].
  intros H. exists states, state. auto.
Qed.

Lemma bind_unit_l {S A} (r : outcome (A * S * list call)) :
  match r with
  | Ret (b, s2, t2) => Ret (b, s2, ([] ++ t2)%list)
  | Throw e => Throw e
  end = r.
Proof. destruct r as [[[b s2] t2]|e]; reflexivity. Qed.

Lemma bind_lift {S A B} (o : outcome A) (a : A) (k : A -> M S B) s :
  o = Ret a -> bind (lift o) k s = k a s.
Proof. intros ->. unfold bind, lift. apply bind_unit_l. Qed.

Lemma bind_reads {S A B} (f : S -> A) (k : A -> M S B) s :
  bind (reads f) k s = k (f s) s.
Proof. unfold bind, reads. apply bind_unit_l. Qed.

Lemma bind_modify {S B} (f : S -> S) (k : unit -> M S B) s :
  bind (modify f) k s = k tt (f s).
Proof. unfold bind, modify. apply bind_unit_l. Qed.

Lemma bind_call {B} (f : value) (k : unit -> M fsm B) m :
  bind (callIfFunction f) k m =
  match k tt m with
  | Ret (b, m', t) => Ret (b, m', (invoked f (current m) ++ t)%list)
  | Throw e => Throw e
  end.
Proof. unfold bind. destruct f; reflexivity. Qed.

Lemma handleEvent_invalid name m :
  isInternalValid m = false ->
  handleEvent name m = Ret (ERROR_IMPROPERLY_INITIALIZED, m, []) /\
  canHandleEvent name m = Ret (false, m, []).
Proof.
  intros H. unfold handleEvent, canHandleEvent.
  rewrite !bind_reads, H. simpl. auto.
Qed.

Lemma canHandleEvent_valid name m events :
  isInternalValid m = true ->
  currentEvents m = Ret events ->
  canHandleEvent name m = Ret (has events name, m, []).
Proof.
  intros Hv He. apply currentEvents_Ret in He.
  destruct He as (states & state & H1 & H2 & H3).
  unfold canHandleEvent.
  rewrite bind_reads, Hv. simpl. rewrite !bind_reads.
  rewrite (bind_lift _ _ _ _ H1), (bind_lift _ _ _ _ H2),
    (bind_lift _ _ _ _ H3).
  reflexivity.
Qed.

Lemma bind_canHandleEvent {B} name m events (k : bool -> M fsm B) :
  isInternalValid m = true ->
  currentEvents m = Ret events ->
  bind (canHandleEvent name) k m = k (has events name) m.
Proof.
  intros Hv He. unfold bind.
  rewrite (canHandleEvent_valid _ _ _ Hv He). apply bind_unit_l.
Qed.

Lemma handleEvent_illegal name m events :
  isInternalValid m = true ->
  currentEvents m = Ret events ->
  has events name = false ->
  handleEvent name m = Ret (ERROR_ILLEGAL_EVENT, m, []).
Proof.
  intros Hv He Hh. unfold handleEvent.
  rewrite bind_reads, Hv. simpl.
  rewrite (bind_canHandleEvent _ _ _ _ Hv He), Hh. reflexivity.
Qed.

(** The successful path of [handleEvent] (lines 166-186). *)
Lemma handleEvent_legal name m T onBefore onExit onEnter onAfter :
  isInternalValid m = true ->
  registered m name T ->
  declared m T ->
  transition m name "onBefore" = Ret onBefore ->
  action m (current m) "onExit" = Ret onExit ->
  action m T "onEnter" = Ret onEnter ->
  transition m name "onAfter" = Ret onAfter ->
  handleEvent name m =
  Ret (OK, set_current T m,
       invoked onBefore (current m) ++ invoked onExit (current m)
       ++ invoked onEnter T ++ invoked onAfter T)%list.
Proof.
  intros Hv (events & node & He & Hown & Ht) (states & target & Hs & Hto & _)
    Hb Hx Hen Ha.
  pose proof (own_has _ _ _ Hown) as Hh. pose proof (own_get _ _ _ Hown) as Hn.
  pose proof (own_has _ _ _ Hto) as Hd. pose proof (own_get _ _ _ Hto) as Htg.
  unfold transition in Hb, Ha. rewrite He, Hn in Hb, Ha.
  unfold handleEvent.
  rewrite bind_reads, Hv. simpl.
  rewrite (bind_canHandleEvent _ _ _ _ Hv He), Hh.
  apply currentEvents_Ret in He.
  destruct He as (states' & state & H1 & H2 & H3).
  rewrite Hs in H1. inversion H1; subst states'; clear H1.
  unfold action, stateAction in Hx, Hen. rewrite Hs in Hx, Hen. rewrite H2 in Hx.
  destruct (get state "actions") as [ca|] eqn:Hca; [|discriminate].
  rewrite Htg in Hen.
  destruct (get target "actions") as [ta|] eqn:Hta; [|discriminate].
  rewrite !bind_reads.
  rewrite (bind_lift _ _ _ _ Hs), (bind_lift _ _ _ _ H2),
    (bind_lift _ _ _ _ H3), (bind_lift _ _ _ _ Hn), (bind_lift _ _ _ _ Ht).
  rewrite Hd.
  rewrite (bind_lift _ _ _ _ Hca), (bind_lift _ _ _ _ Htg),
    (bind_lift _ _ _ _ Hta), (bind_lift _ _ _ _ Hx),
    (bind_lift _ _ _ _ Hen), (bind_lift _ _ _ _ Hb).
  rewrite !bind_call, bind_modify, bind_call.
  rewrite (bind_lift _ _ _ _ Ha), bind_call.
  unfold ret. simpl. rewrite app_nil_r. reflexivity.
Qed.

Lemma invoked_call f m :
  callIfFunction f m = Ret (tt, m, invoked f (current m)).
Proof. destruct f; reflexivity. Qed.

Lemma callIfFunction_Ret f m u m' t :
  callIfFunction f m = Ret (u, m', t) ->
  m' = m /\ t = invoked f (current m).
Proof. rewrite invoked_call. intros H; inversion H; auto. Qed.

(** Every way [handleEvent] can return. *)
Lemma handleEvent_cases name m r m' t :
  handleEvent name m = Ret (r, m', t) ->
  (isInternalValid m = false /\
   r = ERROR_IMPROPERLY_INITIALIZED /\ m' = m /\ t = []) \/
  (isInternalValid m = true /\
   exists events,
     currentEvents m = Ret events /\
     (has events name = false /\
      r = ERROR_ILLEGAL_EVENT /\ m' = m /\ t = [] \/
      exists T,
        registered m name T /\
        (~ declared m T /\
         r = ERROR_INVALID_TARGET_STATE /\ m' = m /\ t = [] \/
         declared m T /\ r = OK /\ m' = set_current T m /\
         exists onBefore onExit onEnter onAfter,
           transition m name "onBefore" = Ret onBefore /\
           action m (current m) "onExit" = Ret onExit /\
           action m T "onEnter" = Ret onEnter /\
           transition m name "onAfter" = Ret onAfter /\
           t = (invoked onBefore (current m) ++ invoked onExit (current m)
                ++ invoked onEnter T ++ invoked onAfter T)%list))).
Proof.
  unfold handleEvent. rewrite bind_reads.
  destruct (isInternalValid m) eqn:Hv; simpl.
  2:{ intros H. apply ret_Ret in H. destruct H as (-> & -> & ->). auto. }
  intros H. right. split; [reflexivity|].
  apply bind_Ret in H. destruct H as (can & m1 & ? & ? & Hcan & H & ->).
  unfold canHandleEvent in Hcan. rewrite bind_reads, Hv in Hcan.
  simpl in Hcan. rewrite !bind_reads in Hcan.
  apply bind_Ret in Hcan.
  destruct Hcan as (states & ? & ? & ? & Hs & Hcan & ->).
  apply lift_Ret in Hs. destruct Hs as (Hs & -> & ->).
  apply bind_Ret in Hcan.
  destruct Hcan as (state & ? & ? & ? & Hst & Hcan & ->).
  apply lift_Ret in Hst. destruct Hst as (Hst & -> & ->).
  apply bind_Ret in Hcan.
  destruct Hcan as (events & ? & ? & ? & Hev & Hcan & ->).
  apply lift_Ret in Hev. destruct Hev as (Hev & -> & ->).
  apply ret_Ret in Hcan. destruct Hcan as (-> & -> & ->).
  assert (He : currentEvents m = Ret events).
  { unfold currentEvents. rewrite Hs, Hst. assumption. }
  exists events. split; [assumption|].
  destruct (has events name) eqn:Hh.
  2:{ left. apply ret_Ret in H. destruct H as (-> & -> & ->). auto. }
  right. rewrite !bind_reads in H.
  rewrite (bind_lift _ _ _ _ Hs), (bind_lift _ _ _ _ Hst),
    (bind_lift _ _ _ _ Hev) in H.
  apply bind_Ret in H. destruct H as (node & ? & ? & ? & Hn & H & ->).
  apply lift_Ret in Hn. destruct Hn as (Hn & -> & ->).
  apply bind_Ret in H. destruct H as (T & ? & ? & ? & Ht & H & ->).
  apply lift_Ret in Ht. destruct Ht as (Ht & -> & ->).
  assert (Hreg : registered m name T).
  { exists events, node. split; [assumption|]. split; [|assumption].
    destruct (get_Ret _ _ _ Hn) as [_ ->]. apply has_own; [assumption|].
    apply (get_Ret _ _ _ Ht). }
  exists T. split; [assumption|].
  destruct (has states (toKey T)) eqn:Hd.
  2:{ left. apply ret_Ret in H. destruct H as (-> & -> & ->).
      repeat split; auto.
      intros (states' & target & Hs' & Hto & _). rewrite Hs in Hs'.
      inversion Hs'; subst. apply own_has in Hto. congruence. }
  right.
  apply bind_Ret in H. destruct H as (ca & ? & ? & ? & Hca & H & ->).
  apply lift_Ret in Hca. destruct Hca as (Hca & -> & ->).
  apply bind_Ret in H. destruct H as (target & ? & ? & ? & Htg & H & ->).
  apply lift_Ret in Htg. destruct Htg as (Htg & -> & ->).
  apply bind_Ret in H. destruct H as (ta & ? & ? & ? & Hta & H & ->).
  apply lift_Ret in Hta. destruct Hta as (Hta & -> & ->).
  apply bind_Ret in H. destruct H as (onExit & ? & ? & ? & Hx & H & ->).
  apply lift_Ret in Hx. destruct Hx as (Hx & -> & ->).
  apply bind_Ret in H. destruct H as (onEnter & ? & ? & ? & Hen & H & ->).
  apply lift_Ret in Hen. destruct Hen as (Hen & -> & ->).
  apply bind_Ret in H. destruct H as (onBefore & ? & ? & ? & Hb & H & ->).
  apply lift_Ret in Hb. destruct Hb as (Hb & -> & ->).
  assert (Hdec : declared m T).
  { exists states, target. split; [assumption|].
    split; [|apply (get_Ret _ _ _ Hta)].
    destruct (get_Ret _ _ _ Htg) as [_ ->]. apply has_own; [assumption|].
    apply (get_Ret _ _ _ Hta). }
  assert (Hb' : transition m name "onBefore" = Ret onBefore).
  { unfold transition. rewrite He, Hn. assumption. }
  assert (Hx' : action m (current m) "onExit" = Ret onExit).
  { unfold action, stateAction. rewrite Hs, Hst, Hca. assumption. }
  assert (Hen' : action m T "onEnter" = Ret onEnter).
  { unfold action, stateAction. rewrite Hs, Htg, Hta. assumption. }
  rewrite !bind_call, bind_modify, bind_call in H.
  destruct (get node "onAfter") as [onAfter|] eqn:Ha; [|discriminate].
  rewrite (bind_lift _ _ _ _ eq_refl), bind_call in H.
  unfold ret in H. simpl in H. inversion H; subst r m'; clear H.
  repeat split; auto.
  exists onBefore, onExit, onEnter, onAfter.
  repeat split; auto.
  - unfold transition. rewrite He, Hn. assumption.
  - simpl. rewrite app_nil_r. reflexivity.
Qed.

(** ** Machines in use *)

Lemma get_total v key x :
  get v key = Ret x -> forall key', exists x', get v key' = Ret x'.
Proof.
  intros H key'. apply get_Ret in H. destruct H as [H _].
  eexists. apply get_prop, H.
Qed.

Lemma get_defined v key : nullish v = false -> exists x, get v key = Ret x.
Proof. intros H. eexists. apply get_prop, H. Qed.

Lemma truthy_get v key : truthy v = true -> exists x, get v key = Ret x.
Proof. intros H. apply get_defined, truthy_not_nullish, H. Qed.

Lemma orElse_get v key : exists x, get (orElse v (VObj [])) key = Ret x.
Proof.
  apply truthy_get. unfold orElse. destruct (truthy v) eqn:E; auto.
Qed.

Lemma isValid_Ret m b :
  isValid m = Ret (b, m, []) <-> statusCode_eqb (initStatus m) OK = b.
Proof.
  unfold isValid, reads. split; intros H; [inversion H | rewrite H]; auto.
Qed.

Lemma statusCode_eqb_OK s : statusCode_eqb s OK = true <-> s = OK.
Proof. destruct s; simpl; split; intros; congruence. Qed.

Lemma registered_functional m name T T' :
  registered m name T -> registered m name T' -> T = T'.
Proof.
  intros (events & node & He & Hn & Ht) (events' & node' & He' & Hn' & Ht').
  congruence.
Qed.

Lemma keyed_object props :
  keyed (VObj props) = true -> entries (VObj props) = props.
Proof.
  simpl. unfold entries.
  destruct (isArrayLike (VObj props)); [discriminate | reflexivity].
Qed.

Lemma keyed_entries v :
  keyed v = true -> exists props, v = VObj props /\ entries v = props.
Proof.
  destruct v as [| |b|n|s|l|p|pl]; try discriminate. simpl. intros H.
  exists p. split; [reflexivity|]. unfold entries.
  destruct (isArrayLike (VObj p)); [discriminate | reflexivity].
Qed.

Lemma newFSM_runInit userConfig m :
  newFSM userConfig = Ret m -> exists l, runInit userConfig = Ret (l, m).
Proof.
  unfold newFSM. destruct (runInit userConfig) as [[l m0]|]; [|discriminate].
  simpl. intros H; inversion H; subst. eauto.
Qed.

(** What holds of every machine in use: validation results are those of
    construction, and the current state of a valid machine has a
    definition that is neither [null] nor [undefined]. *)
Lemma reachable_inv userConfig m :
  reachable userConfig m ->
  exists l m0,
    runInit userConfig = Ret (l, m0) /\
    config m = config m0 /\
    isInternalValid m = isInternalValid m0 /\
    initStatus m = initStatus m0 /\
    (isInternalValid m = true ->
     exists states state,
       get (config m) "states" = Ret states /\
       get states (toKey (current m)) = Ret state /\
       nullish state = false).
Proof.
  induction 1 as [m Hnew | m name r m' t Hreach IH Hstep].
  - destruct (newFSM_runInit _ _ Hnew) as [l Hrun].
    exists l, m. repeat split; auto.
    destruct (runInit_spec _ _ _ Hrun) as (_ & _ & _ & Hv & Hok & _).
    intros Hvalid. rewrite Hvalid in Hv.
    destruct (anyInvalid l); [discriminate|].
    destruct (Hok eq_refl) as (states & Hs & (state & Hst & Htr) & _).
    apply truthy_not_nullish in Htr. eauto.
  - destruct IH as (l & m0 & Hrun & Hc & Hv & Hst & Hcur).
    exists l, m0.
    destruct (handleEvent_cases _ _ _ _ _ Hstep)
      as [(_ & _ & -> & _) | (Hvalid & events & He & Hcase)];
      [repeat split; auto|].
    destruct Hcase as [(_ & _ & -> & _) | (T & Hreg & Hcase)];
      [repeat split; auto|].
    destruct Hcase as [(_ & _ & -> & _) | (Hdec & _ & -> & _)];
      [repeat split; auto|].
    simpl. repeat split; auto. intros _.
    destruct Hdec as (states & target & Hs & Hto & Htn).
    exists states, target. split; [assumption|].
    split; [apply own_get; assumption | assumption].
Qed.

(** On a machine in use, [isValid()] tells [isInternalValid]. *)
Lemma reachable_isValid userConfig m b :
  reachable userConfig m ->
  isValid m = Ret (b, m, []) -> isInternalValid m = b.
Proof.
  intros Hreach Hval. apply isValid_Ret in Hval.
  destruct (reachable_inv _ _ Hreach) as (l & m0 & Hrun & _ & Hv & Hst & _).
  destruct (runInit_spec _ _ _ Hrun) as (_ & Hco & _ & Hv0 & _).
  unfold coherent in Hco. simpl in Hco.
  rewrite Hv, Hv0. rewrite Hst in Hval. subst b.
  destruct (anyInvalid l); simpl.
  - destruct (statusCode_eqb (initStatus m0) OK) eqn:E; [|reflexivity].
    apply statusCode_eqb_OK in E. apply Hco in E. discriminate.
  - symmetry. apply statusCode_eqb_OK. apply Hco. reflexivity.
Qed.

(** The facts about a valid machine in use that the API relies on. *)
Lemma reachable_valid userConfig m :
  reachable userConfig m ->
  isValid m = Ret (true, m, []) ->
  isInternalValid m = true /\
  exists states state,
    get (config m) "states" = Ret states /\
    (forall key st, In (key, st) (entries states) -> validState states st) /\
    get states (toKey (current m)) = Ret state /\
    nullish state = false.
Proof.
  intros Hreach Hval.
  pose proof (reachable_isValid _ _ _ Hreach Hval) as Hv.
  split; [assumption|].
  destruct (reachable_inv _ _ Hreach) as (l & m0 & Hrun & Hc & Hv' & _ & Hcur).
  destruct (Hcur Hv) as (states & state & Hs & Hst & Htr).
  destruct (runInit_spec _ _ _ Hrun) as (_ & _ & _ & Hv0 & Hok & _).
  rewrite <- Hv', Hv in Hv0.
  destruct (anyInvalid l); [discriminate|].
  destruct (Hok eq_refl) as (states' & Hs' & _ & Hall).
  rewrite <- Hc, Hs in Hs'. inversion Hs'; subst states'.
  exists states, state. auto.
Qed.

(** When [_.each] walked [config.states] and the events of the current
    state by their keys, [init] has inspected the current state and each of
    its events. *)
Lemma registered_inspected userConfig m name T states events :
  reachable userConfig m ->
  isValid m = Ret (true, m, []) ->
  registered m name T ->
  get (config m) "states" = Ret states ->
  currentEvents m = Ret events ->
  keyed states = true -> keyed events = true ->
  exists state node,
    get states (toKey (current m)) = Ret state /\
    get state "events" = Ret events /\
    ownProperty events name = Some node /\
    get node "toState" = Ret T /\
    keys events <> [] /\
    validState states state /\ validEvent states node.
Proof.
  intros Hreach Hval (events' & node & He' & Hown & Ht) Hs He Hks Hke.
  rewrite He in He'. inversion He'; subst events'; clear He'.
  destruct (reachable_valid _ _ Hreach Hval)
    as (_ & states' & _ & Hs' & Hall & _).
  rewrite Hs in Hs'. inversion Hs'; subst states'; clear Hs'.
  apply currentEvents_Ret in He.
  destruct He as (states' & state & H1 & H2 & H3).
  rewrite Hs in H1. inversion H1; subst states'; clear H1.
  exists state, node.
  pose proof (has_not_nullish _ _ (own_has _ _ _ Hown)) as Hne.
  destruct (state_with_events_is_own _ _ _ _ H2 H3 Hne) as (sp & -> & Hin).
  apply own_In in Hin.
  rewrite <- (keyed_object _ Hks) in Hin.
  pose proof (Hall _ _ Hin) as Hvs.
  destruct (keyed_entries _ Hke) as (ep & -> & _).
  pose proof (own_In _ _ _ Hown) as Hnode.
  assert (Hk : keys (VObj ep) <> []).
  { simpl. destruct ep; [destruct Hnode | discriminate]. }
  repeat (split; [assumption|]).
  destruct Hvs as (events' & He' & Hev & _).
  rewrite H3 in He'. inversion He'; subst events'.
  apply (Hev name). rewrite (keyed_object _ Hke). exact Hnode.
Qed.

(** A legal event towards a declared state is carried out (lines 166-186):
    the four callbacks are read, those that are functions are called in
    order around the assignment to [current], and [OK] is returned. *)
Lemma legal_transition m name T :
  isInternalValid m = true ->
  registered m name T ->
  declared m T ->
  exists onBefore onExit onEnter onAfter,
    transition m name "onBefore" = Ret onBefore /\
    action m (current m) "onExit" = Ret onExit /\
    action m T "onEnter" = Ret onEnter /\
    transition m name "onAfter" = Ret onAfter /\
    handleEvent name m =
    Ret (OK, set_current T m,
         invoked onBefore (current m) ++ invoked onExit (current m)
         ++ invoked onEnter T ++ invoked onAfter T)%list.
Proof.
  intros Hv Hreg Hdec.
  pose proof Hreg as (events & node & He & Hown & Ht).
  pose proof Hdec as (states & target & Hs & Hto & Htn).
  pose proof (own_get _ _ _ Hown) as Hn.
  pose proof (own_get _ _ _ Hto) as Hg.
  pose proof He as He0. apply currentEvents_Ret in He0.
  destruct He0 as (states' & state & H1 & Hst & H3).
  rewrite Hs in H1. inversion H1; subst states'; clear H1.
  destruct (get_total _ _ _ Ht "onBefore") as [onBefore Hb].
  destruct (get_total _ _ _ Ht "onAfter") as [onAfter Ha].
  destruct (get_total _ _ _ H3 "actions") as [ca Hca].
  destruct (get_defined target "actions" Htn) as [ta Hta].
  destruct (orElse_get ca "onExit") as [onExit Hx].
  destruct (orElse_get ta "onEnter") as [onEnter Hen].
  assert (Hb' : transition m name "onBefore" = Ret onBefore).
  { unfold transition. rewrite He, Hn. assumption. }
  assert (Ha' : transition m name "onAfter" = Ret onAfter).
  { unfold transition. rewrite He, Hn. assumption. }
  assert (Hx' : action m (current m) "onExit" = Ret onExit).
  { unfold action, stateAction. rewrite Hs, Hst, Hca. assumption. }
  assert (Hen' : action m T "onEnter" = Ret onEnter).
  { unfold action, stateAction. rewrite Hs, Hg, Hta. assumption. }
  exists onBefore, onExit, onEnter, onAfter.
  repeat split; auto.
  apply handleEvent_legal; assumption.
Qed.



(** X14.  On a valid machine whose states and events [init] walked by their
    keys, [handleEvent] reports an invalid target only for a name that
    [config.states] does not own and inherits from [Object.prototype]. *)
Lemma invalid_target_is_inherited userConfig m name m' t states events :
  reachable userConfig m ->
  isValid m = Ret (true, m, []) ->
  get (config m) "states" = Ret states ->
  currentEvents m = Ret events ->
  keyed states = true -> keyed events = true ->
  handleEvent name m = Ret (ERROR_INVALID_TARGET_STATE, m', t) ->
  exists T,
    registered m name (VStr T) /\ ~ declared m (VStr T) /\
    existsb (String.eqb T) objectPrototype = true.
Proof.
  intros Hreach Hval Hs He Hks Hke H.
  destruct (handleEvent_cases _ _ _ _ _ H)
    as [(_ & E & _) | (_ & events' & _ & Hcase)]; [discriminate|].
  destruct Hcase as [(_ & E & _) | (T & Hreg & Hcase)]; [discriminate|].
  destruct Hcase as [(Hnd & _) | (_ & E & _)]; [|discriminate].
  destruct (registered_inspected _ _ _ _ _ _ Hreach Hval Hreg Hs He Hks Hke)
    as (state & node & _ & _ & _ & Ht & _ & _ & Hve).
  destruct Hve as (_ & (T' & target & Ht' & Hg & Htr) & _).
  rewrite Ht in Ht'. inversion Ht'; subst T; clear Ht'.
  exists T'. split; [assumption|]. split; [assumption|].
  destruct (keyed_entries _ Hks) as (sp & -> & _).
  apply get_Ret in Hg. destruct Hg as [_ ->].
  revert Htr. unfold prop. cbn [ownProperty].
  destruct (own sp T') as [x|] eqn:E.
  - intros Htr. exfalso. apply Hnd. exists (VObj sp), x.
    split; [assumption|]. split; [exact E|].
    apply truthy_not_nullish, Htr.
  - unfold inherited. cbn [prototypeOf].
    destruct (existsb (String.eqb T') objectPrototype);
      [reflexivity | discriminate].
Qed.

(** X15.  [handleEvent] assigns only keys of [config.states] to [current]:
    after a call that returned [OK], on any machine, [currentState()] is a
    key of [config.states] with a definition. *)
Lemma handleEvent_OK_declared name m m' t :
  handleEvent name m = Ret (OK, m', t) -> declared m' (current m').
Proof.
  intros H. destruct (handleEvent_cases _ _ _ _ _ H)
    as [(_ & E & _) | (_ & events & _ & Hcase)]; [discriminate|].
  destruct Hcase as [(_ & E & _) | (T & _ & Hcase)]; [discriminate|].
  destruct Hcase as [(_ & E & _) | (Hdec & _ & -> & _)]; [discriminate|].
  exact Hdec.
Qed.
(** ** The README scenarios *)

Example lightSwitch_scenario :
  let m0 := mkFsm lightSwitch true (VStr "Off") OK in
  let m1 := set_current (VStr "On") m0 in
  newFSM lightSwitch = Ret m0 /\
  isValid m0 = Ret (true, m0, []) /\
  handleEvent "turnOn" m0 = Ret (OK, m1, []) /\
  handleEvent "turnOff" m1 = Ret (OK, m0, []) /\
  handleEvent "turnOff" m0 = Ret (ERROR_ILLEGAL_EVENT, m0, []).
Proof. repeat split. Qed.

Example loginSequence_scenario :
  let m := mkFsm loginSequence true (VStr "LoggedOut") OK in
  newFSM loginSequence = Ret m /\
  handleEvents ["login"; "failure"; "login"; "success"; "logout"] m =
  Ret ([OK; OK; OK; OK; OK], m,
       [ Invoked "loginFailed" (VStr "LoggingIn");
         Invoked "youHaveBeenLoggedOut" (VStr "LoggedOut");
         Invoked "youAreNowLoggedIn" (VStr "LoggedIn");
         Invoked "youHaveBeenLoggedOut" (VStr "LoggedOut");
         Invoked "thanksForPlaying" (VStr "LoggedOut") ]).
Proof. split; reflexivity. Qed.


(** ** lodash on paths and on collections that are not plain objects *)

Example stringToPath_samples :
  stringToPath "a.b" = ["a"; "b"] /\
  stringToPath "a[0].b" = ["a"; "0"; "b"] /\
  stringToPath "a['x.y']" = ["a"; "x.y"] /\
  stringToPath ".a" = [""; "a"] /\
  stringToPath "a..b" = ["a"; ""; "b"].
Proof. repeat split. Qed.

Example has_resolves_paths :
  has (VObj [("turnOn", ev "On")]) "turnOn" = true /\
  has (VObj [("turnOn", ev "On")]) "turnOn.toState" = true /\
  has (VObj [("turnOn", ev "On")]) "turnOn[toState]" = true /\
  has (VObj [("turnOn", ev "On")]) "turnOn.onBefore" = false /\
  has (VObj [("a.b", ev "On")]) "a.b" = true /\
  has (VObj [("a.b", ev "On")]) "a" = false /\
  has (VObj []) "constructor" = false /\
  has (VStr "ab") "length" = true /\
  has (VStr "ab") "1" = true /\
  has (VFun "f") "name" = true /\
  has (VFun "f") "prototype.constructor.name" = true /\
  has (VFun "f") "call" = false /\
  has VUndef "length" = false.
Proof. repeat split. Qed.

Example keys_samples :
  keys (VStr "ab") = ["0"; "1"] /\
  keys (VFun "f") = [] /\
  keys VUndef = [] /\
  keys (VObj [("A", VNull); ("length", VNum 0)]) = ["A"; "length"].
Proof. repeat split. Qed.

Example each_samples :
  entries (VStr "ab") = [("0", VStr "a"); ("1", VStr "b")] /\
  entries (VFun "f") = [] /\
  entries (VObj [("A", VNull); ("B", VNum 1)])
  = [("A", VNull); ("B", VNum 1)] /\
  entries (VObj [("A", VNull); ("length", VNum 0)]) = [] /\
  entries (VObj [("A", VNull); ("length", VNum 1)]) = [("0", VUndef)] /\
  entries (VObj [("A", VNull); ("length", VStr "1")])
  = [("A", VNull); ("length", VStr "1")].
Proof. repeat split. Qed.

(** A string for [states]: its characters are the states, none has events,
    and ['ab'['length']] is truthy. *)
Example string_states :
  let cfg := VObj [("startState", VStr "length"); ("states", VStr "ab")] in
  newFSM cfg = Ret (mkFsm cfg true (VStr "length") OK).
Proof. reflexivity. Qed.

(** A string for [events]: its characters are the event nodes, and they
    have no [toState]. *)
Example string_events :
  let cfg := VObj [ ("startState", VStr "A");
                    ("states", VObj [("A", VObj [("events", VStr "xy")])]) ] in
  newFSM cfg = Ret (mkFsm cfg false (VStr "A") ERROR_INVALID_TARGET_STATE).
Proof. reflexivity. Qed.

(** A function for [events]: it has no key, so [init] takes the state for
    one without events, yet [_.has] finds its [length]. *)
Example function_events :
  let cfg := VObj [ ("startState", VStr "A");
                    ("states", VObj [("A", VObj [("events", VFun "f")])]) ] in
  let m := mkFsm cfg true (VStr "A") OK in
  newFSM cfg = Ret m /\
  canHandleEvent "length" m = Ret (true, m, []) /\
  handleEvent "length" m = Ret (ERROR_INVALID_TARGET_STATE, m, []).
Proof. repeat split. Qed.

(** A [length] among the states decides which states [init] visits. *)
Example length_among_states :
  let cfg n := VObj [ ("startState", VStr "A");
                      ("states", VObj [("A", VNull); ("length", VNum n)]) ] in
  newFSM (cfg 0%Z)
  = Ret (mkFsm (cfg 0%Z) false VNull ERROR_INVALID_START_STATE) /\
  newFSM (cfg 1%Z) = Throw TypeError.
Proof. repeat split. Qed.

(** What [_.cloneDeep] keeps of a configuration. *)
Example cloneDeep_samples :
  cloneDeep lightSwitch = lightSwitch /\
  cloneDeep turnstile = turnstile /\
  cloneDeep (VFun "f") = VObj [] /\
  cloneDeep (VObj [("states", VFun "f")]) = VObj [("states", VFun "f")] /\
  cloneDeep (VObj [("states", VProto "f")]) = VObj [("states", VObj [])].
Proof. repeat split. Qed.
(** ** The claims *)

(** C1 (fails on the code).  A valid machine and an event registered on its
    current state, with target T, for which [handleEvent] does not return
    [OK]: the configuration [inheritedTarget] passes [init], because
    [states['constructor']] is truthy, and [handleEvent('go')] then
    returns [ERROR_INVALID_TARGET_STATE] and leaves [current] at ['A']. *)
Theorem registered_event_refused :
  let m := mkFsm inheritedTarget true (VStr "A") OK in
  newFSM inheritedTarget = Ret m /\
  isValid m = Ret (true, m, []) /\
  currentEvents m = Ret (VObj [("go", ev "constructor")]) /\
  has (VObj [("go", ev "constructor")]) "go" = true /\
  transition m "go" "toState" = Ret (VStr "constructor") /\
  canHandleEvent "go" m = Ret (true, m, []) /\
  handleEvent "go" m = Ret (ERROR_INVALID_TARGET_STATE, m, []).
Proof. repeat split. Qed.

(** C2.  On a machine whose validation failed ([isValid()] is false), every
    call of [handleEvent] returns [ERROR_IMPROPERLY_INITIALIZED], changes
    nothing and calls nothing, and every call of [canHandleEvent] returns
    false. *)
Theorem invalid_machine_refuses userConfig m name :
  reachable userConfig m ->
  isValid m = Ret (false, m, []) ->
  handleEvent name m = Ret (ERROR_IMPROPERLY_INITIALIZED, m, []) /\
  canHandleEvent name m = Ret (false, m, []).
Proof.
  intros Hreach Hval. apply handleEvent_invalid.
  eapply reachable_isValid; eassumption.
Qed.

Lemma invalid_machine_refuses_witness :
  let m := mkFsm (VObj []) false VNull ERROR_NO_VALID_STATES in
  reachable VUndef m /\
  isValid m = Ret (false, m, []) /\
  handleEvent "turnOn" m = Ret (ERROR_IMPROPERLY_INITIALIZED, m, []) /\
  canHandleEvent "turnOn" m = Ret (false, m, []).
Proof.
  intros m.
  assert (Hr : reachable VUndef m) by (apply reach_new; reflexivity).
  assert (Hv : isValid m = Ret (false, m, [])) by reflexivity.
  split; [exact Hr|]. split; [exact Hv|].
  exact (invalid_machine_refuses VUndef m "turnOn" Hr Hv).
Defined.

(** C3 (fails on the code).  A valid machine and a name that is not a key
    of the events mapping of its current state, for which [canHandleEvent]
    returns true and [handleEvent] does not return: the light switch in
    state ['Off'] has the single event ['turnOn'], yet [_.has] resolves
    ['turnOn.toState'] as a path and finds it (lines 163 and 206), and
    line 166 then reads [events['turnOn.toState']], which is [undefined],
    and line 168 its [toState], which throws a [TypeError]. *)
Theorem unknown_event_throws :
  let m := mkFsm lightSwitch true (VStr "Off") OK in
  let events := VObj [("turnOn", ev "On")] in
  newFSM lightSwitch = Ret m /\
  isValid m = Ret (true, m, []) /\
  currentEvents m = Ret events /\
  keys events = ["turnOn"] /\
  hasOwn events "turnOn.toState" = false /\
  get events "turnOn.toState" = Ret VUndef /\
  canHandleEvent "turnOn.toState" m = Ret (true, m, []) /\
  handleEvent "turnOn.toState" m = Throw TypeError.
Proof. repeat split. Qed.

(** C4.  On a valid machine in state A, let B be the target of a legal
    event.  A successful [handleEvent] for it has called, in this order,
    [onBefore] and the [onExit] of A while [currentState()] still returned
    A, then, [current] being B, the [onEnter] of B and [onAfter] (those of
    the four that are functions, and nothing else).  The call does succeed
    when B is a key of [config.states] whose definition is neither [null]
    nor [undefined]. *)
Theorem callbacks_run_in_order userConfig m name B :
  reachable userConfig m ->
  isValid m = Ret (true, m, []) ->
  registered m name B ->
  (forall m' t,
     handleEvent name m = Ret (OK, m', t) ->
     current m' = B /\
     exists onBefore onExit onEnter onAfter,
       transition m name "onBefore" = Ret onBefore /\
       action m (current m) "onExit" = Ret onExit /\
       action m B "onEnter" = Ret onEnter /\
       transition m name "onAfter" = Ret onAfter /\
       t = (invoked onBefore (current m) ++ invoked onExit (current m)
            ++ invoked onEnter B ++ invoked onAfter B)%list) /\
  (declared m B -> exists t, handleEvent name m = Ret (OK, set_current B m, t)).
Proof.
  intros Hreach Hval Hreg. split.
  - intros m' t H.
    destruct (handleEvent_cases _ _ _ _ _ H)
      as [(_ & E & _) | (_ & events & _ & Hcase)]; [discriminate|].
    destruct Hcase as [(_ & E & _) | (T & Hreg' & Hcase)]; [discriminate|].
    destruct Hcase as [(_ & E & _) | (_ & _ & -> & Hcalls)]; [discriminate|].
    rewrite (registered_functional _ _ _ _ Hreg Hreg'). split; [reflexivity|].
    exact Hcalls.
  - intros Hdec.
    pose proof (reachable_isValid _ _ _ Hreach Hval) as Hv.
    destruct (legal_transition _ _ _ Hv Hreg Hdec)
      as (onBefore & onExit & onEnter & onAfter & _ & _ & _ & _ & H).
    eexists. exact H.
Qed.

Lemma turnstile_reachable :
  reachable turnstile (mkFsm turnstile true (VStr "Locked") OK).
Proof. apply reach_new. reflexivity. Qed.

Lemma callbacks_run_in_order_witness :
  let m := mkFsm turnstile true (VStr "Locked") OK in
  let B := VStr "Unlocked" in
  reachable turnstile m /\
  isValid m = Ret (true, m, []) /\
  registered m "coin" B /\
  (forall m' t,
     handleEvent "coin" m = Ret (OK, m', t) ->
     current m' = B /\
     exists onBefore onExit onEnter onAfter,
       transition m "coin" "onBefore" = Ret onBefore /\
       action m (current m) "onExit" = Ret onExit /\
       action m B "onEnter" = Ret onEnter /\
       transition m "coin" "onAfter" = Ret onAfter /\
       t = (invoked onBefore (current m) ++ invoked onExit (current m)
            ++ invoked onEnter B ++ invoked onAfter B)%list) /\
  (declared m B ->
   exists t, handleEvent "coin" m = Ret (OK, set_current B m, t)).
Proof.
  intros m B.
  assert (Hv : isValid m = Ret (true, m, [])) by reflexivity.
  assert (Hg : registered m "coin" B).
  { unfold registered. do 2 eexists. repeat split; reflexivity. }
  split; [exact turnstile_reachable|]. split; [exact Hv|].
  split; [exact Hg|].
  exact (callbacks_run_in_order turnstile m "coin" B
           turnstile_reachable Hv Hg).
Defined.

(** The calls made by the turnstile when a coin is inserted. *)
Example turnstile_coin :
  let m := mkFsm turnstile true (VStr "Locked") OK in
  handleEvent "coin" m =
  Ret (OK, set_current (VStr "Unlocked") m,
       [ Invoked "beforeCoin" (VStr "Locked");
         Invoked "exitLocked" (VStr "Locked");
         Invoked "enterUnlocked" (VStr "Unlocked");
         Invoked "afterCoin" (VStr "Unlocked") ]).
Proof. reflexivity. Qed.

(** C5 (fails on the code).  Construction from a configuration in which a
    state is defined as [null] does not return a machine: reading
    [state.events] at line 87 throws a [TypeError] out of [newFSM]. *)
Theorem null_state_throws : newFSM nullState = Throw TypeError.
Proof. reflexivity. Qed.

(** C6 (fails on the code).  A state without events whose [onEnter] is
    present and not callable, in a configuration that [init] accepts: the
    check of the actions (lines 94-106) sits in the branch of line 89 that
    is taken only when the state has an event, so [terminalBadAction] is
    valid, with status [OK]; the transition into the state then skips its
    [onEnter]. *)
Theorem final_state_actions_unchecked :
  let m := mkFsm terminalBadAction true (VStr "Busy") OK in
  newFSM terminalBadAction = Ret m /\
  get (config m) "states" = Ret terminalStates /\
  keys terminalStates = ["Busy"; "Done"] /\
  stateAction terminalDone "onEnter" = Ret (VStr "notAFunction") /\
  get terminalDone "events" = Ret (VObj []) /\
  In ("Done", terminalDone) (entries terminalStates) /\
  truthy (VStr "notAFunction") = true /\
  isFunction (VStr "notAFunction") = false /\
  isValid m = Ret (true, m, []) /\
  status m = Ret (OK, m, []) /\
  handleEvent "finish" m = Ret (OK, set_current (VStr "Done") m, []).
Proof. repeat split. right. left. reflexivity. Qed.

(** The check of the actions has two more limits: an [onEnter] that is
    present and falsy is accepted ([falsyAction] is valid), and the status
    that [status()] returns is the code of the last problem met
    ([badActionBadTarget]). *)
Example action_check_limits :
  (let m := mkFsm falsyAction true (VStr "A") OK in
   newFSM falsyAction = Ret m /\
   action m (VStr "A") "onEnter" = Ret (VNum 0) /\
   isFunction (VNum 0) = false /\
   isValid m = Ret (true, m, []) /\
   status m = Ret (OK, m, [])) /\
  (let m := mkFsm badActionBadTarget false (VStr "A")
                  ERROR_INVALID_TARGET_STATE in
   newFSM badActionBadTarget = Ret m /\
   action m (VStr "A") "onEnter" = Ret (VStr "notAFunction") /\
   isFunction (VStr "notAFunction") = false /\
   isValid m = Ret (false, m, []) /\
   status m = Ret (ERROR_INVALID_TARGET_STATE, m, [])).
Proof. repeat split. Qed.

(** X16.  During construction, for each state that [_.each] visits and
    whose events mapping has a key, if [actions.onEnter] or
    [actions.onExit] is truthy and not a function, then the flag
    [hasInvalidActionFunction] is raised and [isValid()] returns false;
    [status()] returns [ERROR_INVALID_ACTION_FUNCTION] when no event raised
    a flag of its own. *)
Theorem rejected_actions_invalidate userConfig l m states name state :
  runInit userConfig = Ret (l, m) ->
  get (config m) "states" = Ret states ->
  In (name, state) (entries states) ->
  rejectedActions state ->
  hasInvalidActionFunction l = true /\
  isValid m = Ret (false, m, []) /\
  (eventTrouble l = false ->
   status m = Ret (ERROR_INVALID_ACTION_FUNCTION, m, [])).
Proof.
  intros Hrun Hs Hin Hrej.
  destruct (runInit_spec _ _ _ Hrun) as (_ & Hco & Hack & _ & _ & Hflag).
  pose proof (Hflag _ _ _ Hs Hin Hrej) as Hf.
  split; [assumption|]. split.
  - apply isValid_Ret.
    destruct (statusCode_eqb (initStatus m) OK) eqn:E; [|reflexivity].
    apply statusCode_eqb_OK in E. apply Hco in E. simpl in E.
    unfold anyInvalid in E. rewrite Hf in E.
    rewrite !orb_true_r in E. discriminate.
  - intros Hev. pose proof (Hack Hf Hev) as E. simpl in E.
    unfold status, reads. rewrite E. reflexivity.
Qed.

Lemma rejected_actions_invalidate_witness :
  let l := mkLocals false false false false false true in
  let m := mkFsm badAction false (VStr "A") ERROR_INVALID_ACTION_FUNCTION in
  let state := VObj [ ("events", VObj [("go", ev "A")]);
                      ("actions", VObj [("onEnter", VStr "notAFunction")]) ] in
  runInit badAction = Ret (l, m) /\
  get (config m) "states" = Ret (VObj [("A", state)]) /\
  In ("A", state) (entries (VObj [("A", state)])) /\
  rejectedActions state /\
  hasInvalidActionFunction l = true /\
  isValid m = Ret (false, m, []) /\
  (eventTrouble l = false ->
   status m = Ret (ERROR_INVALID_ACTION_FUNCTION, m, [])).
Proof.
  intros l m state.
  assert (Hrun : runInit badAction = Ret (l, m)) by reflexivity.
  assert (Hs : get (config m) "states" = Ret (VObj [("A", state)]))
    by reflexivity.
  assert (Hin : In ("A", state) (entries (VObj [("A", state)])))
    by (left; reflexivity).
  assert (Hrej : rejectedActions state).
  { exists (VObj [("go", ev "A")]), (VObj [("onEnter", VStr "notAFunction")]),
      (VStr "notAFunction").
    repeat split; try reflexivity; [discriminate | left; reflexivity]. }
  split; [exact Hrun|]. split; [exact Hs|]. split; [exact Hin|].
  split; [exact Hrej|].
  exact (rejected_actions_invalidate badAction l m _ "A" state
           Hrun Hs Hin Hrej).
Defined.

(** C7 (fails on the code).  A valid machine whose [currentState()] is
    neither [null] nor a key of [config.states]: with [startState] set to
    ['valueOf'], the test [states[startState]] of line 67 finds the
    function that every object inherits, and [current] becomes
    ['valueOf']. *)
Theorem current_state_not_declared :
  let m := mkFsm inheritedStart true (VStr "valueOf") OK in
  newFSM inheritedStart = Ret m /\
  isValid m = Ret (true, m, []) /\
  currentState m = Ret (VStr "valueOf", m, []) /\
  exists states,
    get (config m) "states" = Ret states /\
    keys states = ["Off"; "On"] /\
    has states "valueOf" = false.
Proof. repeat split. eexists. repeat split. Qed.





(** Why the keys matter: with a [length] among the states, [_.each] takes
    [config.states] for an array without elements, [init] inspects nothing
    and accepts an [onBefore] that is a string; the self-transition returns
    [OK] and calls nothing. *)
Example uninspected_callback :
  let m := mkFsm uninspected true (VStr "A") OK in
  newFSM uninspected = Ret m /\
  isValid m = Ret (true, m, []) /\
  registered m "go" (VStr "A") /\
  transition m "go" "onBefore" = Ret (VStr "notAFunction") /\
  handleEvent "go" m = Ret (OK, m, []).
Proof.
  repeat split. unfold registered. do 2 eexists. repeat split; reflexivity.
Qed.

(** In the same way [init] does not meet a state defined as [null], and the
    event that leads to it throws at line 172. *)
Example null_target_throws :
  let m := mkFsm nullTarget true (VStr "A") OK in
  newFSM nullTarget = Ret m /\
  isValid m = Ret (true, m, []) /\
  registered m "go" (VStr "B") /\
  has (prop nullTarget "states") "B" = true /\
  ~ declared m (VStr "B") /\
  handleEvent "go" m = Throw TypeError.
Proof.
  repeat split.
  - unfold registered. do 2 eexists. repeat split; reflexivity.
  - intros (states & target & Hs & Ht & Hn).
    inversion Hs; subst states. inversion Ht; subst target. discriminate Hn.
Qed.

(** The calls made by the locked turnstile when it is pushed. *)
Example turnstile_push :
  let m := mkFsm turnstile true (VStr "Locked") OK in
  handleEvent "push" m =
  Ret (OK, m,
       [ Invoked "beforePush" (VStr "Locked");
         Invoked "exitLocked" (VStr "Locked");
         Invoked "enterLocked" (VStr "Locked");
         Invoked "afterPush" (VStr "Locked") ]).
Proof. reflexivity. Qed.

(** C10 (fails on the code).  A valid machine on which [handleEvent]
    returns [ERROR_INVALID_TARGET_STATE]: [init] accepts the target
    ['toString'] of [turnOff] because [states['toString']] is truthy
    (line 127), and the test [_.has(config.states, 'toString')] of line 168
    then fails. *)
Theorem valid_machine_reports_invalid_target :
  let m0 := mkFsm strayTarget true (VStr "Off") OK in
  let m1 := mkFsm strayTarget true (VStr "On") OK in
  newFSM strayTarget = Ret m0 /\
  isValid m0 = Ret (true, m0, []) /\
  handleEvent "turnOn" m0 = Ret (OK, m1, []) /\
  isValid m1 = Ret (true, m1, []) /\
  handleEvent "turnOff" m1 = Ret (ERROR_INVALID_TARGET_STATE, m1, []).
Proof. repeat split. Qed.

(** ** Termination of [init] *)

Lemma returns_ret {S A} (x : A) (s : S) : returns (ret x) s.
Proof. unfold returns, ret. eauto. Qed.

Lemma returns_reads {S A} (f : S -> A) (s : S) : returns (reads f) s.
Proof. unfold returns, reads. eauto. Qed.

Lemma returns_modify {S} (f : S -> S) (s : S) : returns (modify f) s.
Proof. unfold returns, modify. eauto. Qed.

Lemma returns_bind {S A B} (c : M S A) (k : A -> M S B) s :
  returns c s ->
  (forall a s1 t, c s = Ret (a, s1, t) -> returns (k a) s1) ->
  returns (bind c k) s.
Proof.
  intros (a & s1 & t1 & Hc) Hk.
  destruct (Hk _ _ _ Hc) as (b & s2 & t2 & Hb).
  unfold returns, bind. rewrite Hc, Hb. eauto.
Qed.

Lemma returns_when {S} (b : bool) (c : M S unit) s :
  (b = true -> returns c s) -> returns (when b c) s.
Proof. destruct b; simpl; [auto | intros _; apply returns_ret]. Qed.

Lemma returns_get {S} v key (s : S) :
  nullish v = false -> returns (lift (get v key)) s.
Proof.
  intros H. destruct (get_defined v key H) as [x Hx].
  unfold returns, lift. rewrite Hx. eauto.
Qed.

Ltac runs :=
  repeat first
    [ apply returns_ret | apply returns_reads | apply returns_modify
    | apply returns_get; solve [auto using truthy_not_nullish]
    | apply returns_when; intros ?
    | progress cbv zeta
    | match goal with
      | |- returns (if ?c then _ else _) _ => destruct c
      end
    | apply returns_bind; [| intros ? ? ? ?] ].

Lemma inspectEvent_returns states event name s :
  nullish states = false -> returns (inspectEvent states event name) s.
Proof.
  intros Hs. unfold inspectEvent, flag, assign.
  destruct (truthy event) eqn:He; simpl.
  - runs.
  - runs.
Qed.

Lemma inspectActions_returns state s :
  nullish state = false -> returns (inspectActions state) s.
Proof.
  intros Hs. unfold inspectActions, flag, assign.
  apply returns_bind; [runs|]. intros actions s1 t _.
  apply returns_when. intros Ha. runs.
Qed.

Lemma forEach_returns {S} (f : value -> string -> M S unit) l :
  (forall k v s, In (k, v) l -> returns (f v k) s) ->
  forall s, returns (forEach f l) s.
Proof.
  induction l as [|[k v] rest IH]; simpl; intros Hf s.
  - apply returns_ret.
  - apply returns_bind; [apply Hf; left; reflexivity|].
    intros. apply IH. intros. apply Hf. right. assumption.
Qed.

Lemma inspectState_returns states state name s :
  nullish states = false -> nullish state = false ->
  returns (inspectState states state name) s.
Proof.
  intros Hs Hst. unfold inspectState, each.
  apply returns_bind; [runs|]. intros events s1 t _. cbv zeta.
  destruct (length (keys events) <? 1)%nat; [apply returns_ret|].
  apply returns_bind; [apply inspectActions_returns; assumption|].
  intros. apply forEach_returns. intros.
  apply inspectEvent_returns. assumption.
Qed.

Lemma inspectState_throws states state name s :
  nullish state = true -> inspectState states state name s = Throw TypeError.
Proof. destruct state; simpl; try discriminate; reflexivity. Qed.

Lemma forEach_throws {S} (f : value -> string -> M S unit) l :
  (exists k v, In (k, v) l /\ forall s, f v k s = Throw TypeError) ->
  forall s, forEach f l s = Throw TypeError.
Proof.
  induction l as [|[k v] rest IH]; simpl; intros (k' & v' & Hin & Hf) s.
  - destruct Hin.
  - unfold bind. destruct (f v k s) as [[[u s1] t1]|[]] eqn:E; [|reflexivity].
    destruct Hin as [Eq|Hin].
    + inversion Eq; subst. rewrite Hf in E. discriminate.
    + rewrite IH; [reflexivity|]. eauto.
Qed.


Lemma bind_throws {S A B} (c : M S A) (k : A -> M S B) s e :
  returns c s ->
  (forall a s1 t, c s = Ret (a, s1, t) -> k a s1 = Throw e) ->
  bind c k s = Throw e.
Proof.
  intros (a & s1 & t1 & Hc) Hk. unfold bind. rewrite Hc.
  rewrite (Hk _ _ _ Hc). reflexivity.
Qed.

Lemma config_not_nullish userConfig :
  nullish (config (initialClosure userConfig)) = false.
Proof.
  unfold initialClosure, orElse. simpl.
  destruct userConfig; simpl; try reflexivity.
  - destruct b; reflexivity.
  - destruct (negb (n =? 0)%Z); reflexivity.
  - destruct (negb (s =? "")%string); reflexivity.
Qed.

Lemma config_states userConfig :
  exists states, get (config (initialClosure userConfig)) "states" = Ret states.
Proof. apply get_defined, config_not_nullish. Qed.

Lemma bind_throws_now {S A B} (c : M S A) (k : A -> M S B) s e :
  c s = Throw e -> bind c k s = Throw e.
Proof. intros H. unfold bind. rewrite H. reflexivity. Qed.

(** [init] returns when no state is defined as [null] or [undefined]. *)
Lemma init_returns userConfig states :
  get (config (initialClosure userConfig)) "states" = Ret states ->
  (forall name state, In (name, state) (entries states) ->
                      nullish state = false) ->
  returns init (noError, initialClosure userConfig).
Proof.
  intros Hs Hall. unfold init, flag, assign, each.
  pose proof (config_not_nullish userConfig) as Hc.
  apply returns_bind; [runs|]. intros cfg s1 t1 H1.
  apply reads_Ret in H1. destruct H1 as (-> & -> & ->). simpl snd.
  apply returns_bind; [runs|]. intros states' s1 t1 H1.
  apply lift_Ret in H1. destruct H1 as (H1 & -> & ->).
  rewrite Hs in H1. inversion H1; subst states'; clear H1.
  apply returns_bind; [|intros; runs].
  destruct (truthy states) eqn:Ht; [|runs].
  apply truthy_not_nullish in Ht.
  cbv zeta. runs.
  apply forEach_returns. intros k v s' Hin.
  apply inspectState_returns; eauto.
Qed.

(** [init] throws when a state is defined as [null] or [undefined]. *)
Lemma init_throws userConfig states name state :
  get (config (initialClosure userConfig)) "states" = Ret states ->
  In (name, state) (entries states) ->
  nullish state = true ->
  init (noError, initialClosure userConfig) = Throw TypeError.
Proof.
  intros Hs Hin Hn. unfold init, flag, assign, each.
  pose proof (config_not_nullish userConfig) as Hc.
  rewrite bind_reads. simpl snd. rewrite (bind_lift _ _ _ _ Hs).
  assert (Ht : truthy states = true).
  { destruct (truthy states) eqn:E; [reflexivity|].
    rewrite (falsy_entries _ E) in Hin. destruct Hin. }
  rewrite Ht. cbv zeta.
  apply bind_throws_now.
  apply truthy_not_nullish in Ht.
  repeat (apply bind_throws; [solve [runs]|]; intros ? ? ? _).
  apply forEach_throws. exists name, state. split; [assumption|].
  intros s'. apply inspectState_throws. assumption.
Qed.

(** ** A configuration without defects is left alone by the inspection *)

Lemma callable_Ret f :
  callable (Ret f) -> truthy f && negb (isFunction f) = false.
Proof.
  intros H. destruct (truthy f) eqn:E; [|reflexivity].
  rewrite (H f eq_refl E). reflexivity.
Qed.

Lemma inspectEvent_valid states event name s :
  validEvent states event ->
  hasInvalidTransitionFunction (fst s) = false ->
  inspectEvent states event name s = Ret (tt, s, []).
Proof.
  intros (He & (T & target & Ht & Hg & Htr) & Hb & Ha) Hflag.
  destruct (get_defined event "onBefore" (truthy_not_nullish _ He)) as [b Hb'].
  destruct (get_defined event "onAfter" (truthy_not_nullish _ He)) as [a Ha'].
  rewrite Hb' in Hb. rewrite Ha' in Ha.
  apply callable_Ret in Hb. apply callable_Ret in Ha.
  destruct s as [l m]. simpl in Hflag.
  unfold inspectEvent, bind, lift, reads, when, ret, flag, assign, modify.
  rewrite He. simpl. rewrite Hb'. rewrite Hb. simpl.
  rewrite Ha'. rewrite Ha. simpl. rewrite Hflag. simpl.
  rewrite Ht. simpl. rewrite Hg. rewrite Htr. reflexivity.
Qed.

Lemma forEach_unchanged {S} (keeps : S -> Prop)
      (f : value -> string -> M S unit) l s :
  keeps s ->
  (forall k v, In (k, v) l -> keeps s -> f v k s = Ret (tt, s, [])) ->
  forEach f l s = Ret (tt, s, []).
Proof.
  intros Hs. induction l as [|[k v] rest IH]; simpl; intros Hf.
  - reflexivity.
  - unfold bind. rewrite (Hf k v (or_introl eq_refl) Hs).
    rewrite IH; [reflexivity|]. intros. apply Hf; [right|]; assumption.
Qed.

Lemma inspectActions_valid state s :
  nullish state = false ->
  callable (stateAction state "onEnter") ->
  callable (stateAction state "onExit") ->
  hasInvalidActionFunction (fst s) = false ->
  inspectActions state s = Ret (tt, s, []).
Proof.
  intros Hn Hen Hx Hflag. destruct s as [l m]. simpl in Hflag.
  destruct (get_defined state "actions" Hn) as [actions Ha].
  unfold stateAction, orElse in Hen, Hx. rewrite Ha in Hen, Hx.
  unfold inspectActions, bind, lift, reads, when, ret, flag, assign, modify.
  rewrite Ha. destruct (truthy actions) eqn:Hta; [|reflexivity].
  destruct (get_defined actions "onEnter" (truthy_not_nullish _ Hta))
    as [onEnter He].
  destruct (get_defined actions "onExit" (truthy_not_nullish _ Hta))
    as [onExit Hx'].
  rewrite He in Hen. rewrite Hx' in Hx.
  apply callable_Ret in Hen. apply callable_Ret in Hx.
  rewrite He. rewrite Hen. simpl. rewrite Hx'. rewrite Hx. simpl.
  rewrite Hflag. reflexivity.
Qed.

Lemma inspectState_valid states state name s :
  validState states state ->
  hasInvalidTransitionFunction (fst s) = false ->
  hasInvalidActionFunction (fst s) = false ->
  inspectState states state name s = Ret (tt, s, []).
Proof.
  intros (events & He & Hall & Hact) Ht Ha.
  pose proof (proj1 (get_Ret _ _ _ He)) as Hn.
  unfold inspectState, each. rewrite (bind_lift _ _ _ _ He). cbv zeta.
  destruct (length (keys events) <? 1)%nat eqn:Hlen; [reflexivity|].
  assert (Hne : keys events <> []).
  { intros E. rewrite E in Hlen. discriminate. }
  destruct (Hact Hne) as [Hen Hx].
  unfold bind at 1. rewrite (inspectActions_valid _ _ Hn Hen Hx Ha).
  cbv beta iota.
  rewrite (forEach_unchanged
             (fun s : initState => hasInvalidTransitionFunction (fst s) = false)
             (inspectEvent states) (entries events) s);
    [reflexivity | assumption |].
  intros k v Hin Hk. apply inspectEvent_valid; [|assumption].
  eapply Hall. eassumption.
Qed.

(** ** The start state *)

(** What [init] does with [startState] and with an empty [states]
    (lines 60-82). *)
Lemma runInit_start userConfig l m :
  runInit userConfig = Ret (l, m) ->
  exists states,
    get (config (initialClosure userConfig)) "states" = Ret states /\
    (truthy states = false /\ current m = VNull /\
     hasInvalidStateNodes l = true \/
     truthy states = true /\
     exists cs sv,
       get (config (initialClosure userConfig)) "startState" = Ret cs /\
       get states (toKey (if isString cs then cs else VNull)) = Ret sv /\
       current m = (if truthy sv then (if isString cs then cs else VNull)
                    else VNull) /\
       (truthy sv = false -> hasInvalidStartState l = true) /\
       (keys states = [] -> hasInvalidStateNodes l = true)).
Proof.
  unfold runInit. destruct (init (noError, initialClosure userConfig))
    as [[[u s] t]|e] eqn:Hinit; [|discriminate].
  intros E; inversion E; subst s; clear E.
  unfold init in Hinit.
  apply bind_Ret in Hinit. destruct Hinit as (cfg & s1 & ? & ? & Hcfg & H & _).
  apply reads_Ret in Hcfg. destruct Hcfg as (-> & -> & ->).
  apply bind_Ret in H. destruct H as (states & s1 & ? & ? & Hst & H & _).
  apply lift_Ret in Hst. destruct Hst as (Hst & -> & ->).
  apply bind_Ret in H. destruct H as (? & sv & ? & ? & Hbody & H & _).
  apply bind_Ret in H. destruct H as (l' & s1 & ? & ? & Hl & H & _).
  apply reads_Ret in Hl. destruct Hl as (-> & -> & ->).
  unfold assign in H. apply modify_Ret in H. destruct H as (E & _).
  inversion E; subst l m; clear E. simpl fst in *. simpl snd in *.
  exists states. split; [assumption|].
  destruct (truthy states) eqn:Hts.
  - right. split; [reflexivity|].
    apply bind_Ret in Hbody.
    destruct Hbody as (cs & s1 & ? & ? & Hcs & Hbody & _).
    apply lift_Ret in Hcs. destruct Hcs as (Hcs & -> & ->).
    apply bind_Ret in Hbody.
    destruct Hbody as (start & s1 & ? & ? & Hsv & Hbody & _).
    apply lift_Ret in Hsv. destruct Hsv as (Hsv & -> & ->).
    apply bind_Ret in Hbody.
    destruct Hbody as (? & s1 & ? & ? & Hstart & Hbody & _).
    apply bind_Ret in Hbody.
    destruct Hbody as (? & s2 & ? & ? & Hnone & Hloop & _).
    unfold each in Hloop.
    exists cs, start. split; [assumption|]. split; [assumption|].
    assert (Hpre :
      current (snd s2) = (if truthy start
                          then (if isString cs then cs else VNull)
                          else VNull) /\
      (truthy start = false -> hasInvalidStartState (fst s2) = true) /\
      (keys states = [] -> hasInvalidStateNodes (fst s2) = true)).
    { unfold when in Hnone.
      destruct (truthy start) eqn:Htr; mcase; flags;
        repeat split; intros; try reflexivity; try discriminate;
        match goal with
        | H : keys _ = [], H' : (_ <? 1)%nat = false |- _ =>
            rewrite H in H'; discriminate H'
        end. }
    destruct Hpre as (Hc & Hs & Hk).
    assert (Hev : evolves s2 sv).
    { eapply (forEach_preserves (evolves s2));
        [| eassumption | apply evolves_refl].
      intros. eapply evolves_trans; [eassumption|].
      eapply inspectState_evolves; eassumption. }
    destruct Hev as (_ & Hecur & _ & (G1 & G2 & _) & _).
    simpl. rewrite Hecur. auto.
  - left. split; [reflexivity|]. mcase. flags. auto.
Qed.

Lemma newFSM_config userConfig m :
  newFSM userConfig = Ret m -> config m = config (initialClosure userConfig).
Proof.
  intros H. destruct (newFSM_runInit _ _ H) as [l Hrun].
  apply (runInit_spec _ _ _ Hrun).
Qed.

(** [init] on a configuration without defects. *)
Lemma runInit_wellFormed userConfig states cs start :
  get (config (initialClosure userConfig)) "states" = Ret states ->
  get (config (initialClosure userConfig)) "startState" = Ret cs ->
  get states (toKey (if isString cs then cs else VNull)) = Ret start ->
  keys states <> [] ->
  (forall name state, In (name, state) (entries states) ->
                      validState states state) ->
  runInit userConfig =
  Ret (if truthy start then noError else set_hasInvalidStartState noError,
       mkFsm (config (initialClosure userConfig)) (truthy start)
             (if truthy start then (if isString cs then cs else VNull)
              else VNull)
             (if truthy start then OK else ERROR_INVALID_START_STATE)).
Proof.
  intros Hs Hcs Hst Hk Hall.
  assert (Hts : truthy states = true).
  { apply keys_truthy, Hk. }
  assert (Hlen : (length (keys states) <? 1)%nat = false).
  { destruct (keys states); [contradiction | reflexivity]. }
  unfold runInit, init, each.
  rewrite bind_reads. simpl snd. rewrite (bind_lift _ _ _ _ Hs), Hts.
  cbv zeta. unfold bind at 1.
  rewrite (bind_lift _ _ _ _ Hcs), (bind_lift _ _ _ _ Hst), Hlen.
  destruct (truthy start) eqn:Htr.
  - unfold assign, flag, when. rewrite bind_modify.
    unfold bind at 1. unfold ret at 1.
    rewrite (forEach_unchanged
               (fun s : initState =>
                  hasInvalidTransitionFunction (fst s) = false /\
                  hasInvalidActionFunction (fst s) = false)
               (inspectState states) (entries states)); [reflexivity|split; reflexivity|].
    intros k v Hin [H1 H2]. apply inspectState_valid; auto. eapply Hall; eauto.
  - unfold assign, flag, when. unfold bind at 1. unfold bind at 1.
    unfold modify at 1 2. cbv beta iota. unfold bind at 1. unfold ret at 1.
    rewrite (forEach_unchanged
               (fun s : initState =>
                  hasInvalidTransitionFunction (fst s) = false /\
                  hasInvalidActionFunction (fst s) = false)
               (inspectState states) (entries states)); [reflexivity|split; reflexivity|].
    intros k v Hin [H1 H2]. apply inspectState_valid; auto. eapply Hall; eauto.
Qed.

(** ** Further properties of construction *)

(** X1.  A valid machine starts in [config.startState] when that is a
    string; when it is not, [null] stands for it (and the machine is valid
    only because a state is named ['null']). *)
Theorem valid_machine_starts_at_startState userConfig m :
  newFSM userConfig = Ret m ->
  isValid m = Ret (true, m, []) ->
  exists cs,
    get (config m) "startState" = Ret cs /\
    currentState m = Ret (if isString cs then cs else VNull, m, []).
Proof.
  intros Hnew Hval.
  pose proof (reachable_isValid _ _ _ (reach_new _ _ Hnew) Hval) as Hv.
  destruct (newFSM_runInit _ _ Hnew) as [l Hrun].
  destruct (runInit_spec _ _ _ Hrun) as (Hc & _ & _ & Hv0 & _).
  rewrite Hv in Hv0.
  assert (Hl : anyInvalid l = false) by (destruct (anyInvalid l); auto; discriminate).
  destruct (runInit_start _ _ _ Hrun) as (states & Hs & Hcase).
  unfold anyInvalid in Hl. repeat rewrite orb_false_iff in Hl.
  destruct Hl as (((((Hf1 & Hf2) & _) & _) & _) & _).
  destruct Hcase as [(_ & _ & E) | (_ & cs & sv & Hcs & Hsv & Hcur & Hbad & _)];
    [congruence|].
  exists cs. rewrite Hc. split; [assumption|].
  unfold currentState, reads. rewrite Hcur.
  destruct (truthy sv); [reflexivity|].
  rewrite (Hbad eq_refl) in Hf1. discriminate.
Qed.

Lemma valid_machine_starts_at_startState_witness :
  let m := mkFsm lightSwitch true (VStr "Off") OK in
  newFSM lightSwitch = Ret m /\
  isValid m = Ret (true, m, []) /\
  exists cs,
    get (config m) "startState" = Ret cs /\
    currentState m = Ret (if isString cs then cs else VNull, m, []).
Proof.
  intros m.
  assert (Hn : newFSM lightSwitch = Ret m) by reflexivity.
  assert (Hv : isValid m = Ret (true, m, [])) by reflexivity.
  split; [exact Hn|]. split; [exact Hv|].
  exact (valid_machine_starts_at_startState lightSwitch m Hn Hv).
Defined.

(** X2.  When [config.states] is absent, falsy or without keys,
    construction returns a machine whose status is [ERROR_NO_VALID_STATES]
    and which is not valid, whatever else the configuration holds. *)
Theorem no_states_is_reported userConfig states :
  get (config (initialClosure userConfig)) "states" = Ret states ->
  keys states = [] ->
  exists m,
    newFSM userConfig = Ret m /\
    status m = Ret (ERROR_NO_VALID_STATES, m, []) /\
    isValid m = Ret (false, m, []) /\
    forall name,
      handleEvent name m = Ret (ERROR_IMPROPERLY_INITIALIZED, m, []).
Proof.
  intros Hs Hk.
  assert (He : entries states = []) by (apply keys_entries; assumption).
  assert (Hm : exists cur,
    newFSM userConfig =
    Ret (mkFsm (config (initialClosure userConfig)) false cur
               ERROR_NO_VALID_STATES)).
  { unfold newFSM, runInit, init, each, assign, flag.
    rewrite bind_reads. simpl snd. rewrite (bind_lift _ _ _ _ Hs).
    destruct (truthy states) eqn:Hts.
    - destruct (get_defined _ "startState" (config_not_nullish userConfig))
        as [cs Hcs].
      destruct (get_defined states (toKey (if isString cs then cs else VNull))
                  (truthy_not_nullish _ Hts)) as [sv Hsv].
      cbv zeta. unfold bind at 1.
      rewrite (bind_lift _ _ _ _ Hcs), (bind_lift _ _ _ _ Hsv), Hk, He.
      destruct (truthy sv); eexists; reflexivity.
    - eexists; reflexivity. }
  destruct Hm as [cur Hm]. eexists. split; [exact Hm|].
  split; [reflexivity|]. split; [reflexivity|].
  intros name. apply handleEvent_invalid. reflexivity.
Qed.

Lemma no_states_is_reported_witness :
  get (config (initialClosure (VObj [("startState", VStr "Off")]))) "states"
    = Ret VUndef /\
  keys VUndef = [] /\
  exists m,
    newFSM (VObj [("startState", VStr "Off")]) = Ret m /\
    status m = Ret (ERROR_NO_VALID_STATES, m, []) /\
    isValid m = Ret (false, m, []) /\
    forall name,
      handleEvent name m = Ret (ERROR_IMPROPERLY_INITIALIZED, m, []).
Proof.
  assert (Hs : get (config (initialClosure (VObj [("startState", VStr "Off")])))
                   "states" = Ret VUndef) by reflexivity.
  assert (Hk : keys VUndef = []) by reflexivity.
  split; [exact Hs|]. split; [exact Hk|].
  exact (no_states_is_reported _ _ Hs Hk).
Defined.

(** X3.  Construction throws exactly when one of the states that [_.each]
    visits in [config.states] is [null] or [undefined]; in every other case
    [newFSM] returns a machine. *)
Theorem construction_throws_iff userConfig :
  newFSM userConfig = Throw TypeError <->
  exists states name state,
    get (config (initialClosure userConfig)) "states" = Ret states /\
    In (name, state) (entries states) /\ nullish state = true.
Proof.
  split.
  - intros Hthrow. destruct (config_states userConfig) as [states Hs].
    exists states.
    destruct (existsb (fun p => nullish (snd p)) (entries states)) eqn:E.
    + apply existsb_exists in E. destruct E as ([name state] & Hin & Hn).
      exists name, state. auto.
    + exfalso.
      assert (Hall : forall name state, In (name, state) (entries states) ->
                                        nullish state = false).
      { intros name state Hin.
        destruct (nullish state) eqn:Hn; [|reflexivity].
        rewrite <- E. symmetry. apply existsb_exists.
        exists (name, state). auto. }
      destruct (init_returns _ _ Hs Hall) as (u & s & t & Hi).
      unfold newFSM, runInit in Hthrow. rewrite Hi in Hthrow. discriminate.
  - intros (states & name & state & Hs & Hin & Hn).
    unfold newFSM, runInit. rewrite (init_throws _ _ _ _ Hs Hin Hn).
    reflexivity.
Qed.

Lemma construction_throws_iff_witness :
  (exists states name state,
     get (config (initialClosure nullState)) "states" = Ret states /\
     In (name, state) (entries states) /\ nullish state = true) /\
  newFSM nullState = Throw TypeError.
Proof.
  assert (H : exists states name state,
     get (config (initialClosure nullState)) "states" = Ret states /\
     In (name, state) (entries states) /\ nullish state = true).
  { exists (VObj [("A", VNull)]), "A", VNull.
    split; [reflexivity|]. split; [left; reflexivity | reflexivity]. }
  split; [exact H|].
  exact (proj2 (construction_throws_iff nullState) H).
Defined.

(** X4.  The validity criterion.  [newFSM] returns a valid machine exactly
    for the configurations in which [states] has at least one key,
    [states[startState]] is truthy, and every state that [_.each] visits
    passes the inspection of lines 87-138: its events mapping can be read,
    each event node that [_.each] visits there is truthy with a string
    [toState] for which [states[toState]] is truthy and with
    [onBefore]/[onAfter] falsy or functions, and, when the events mapping
    has a key, [onEnter]/[onExit] are falsy or functions. *)
Theorem validity_criterion userConfig :
  (exists m, newFSM userConfig = Ret m /\ isValid m = Ret (true, m, [])) <->
  wellFormed (config (initialClosure userConfig)).
Proof.
  split.
  - intros (m & Hnew & Hval).
    pose proof (reachable_isValid _ _ _ (reach_new _ _ Hnew) Hval) as Hv.
    destruct (newFSM_runInit _ _ Hnew) as [l Hrun].
    destruct (runInit_spec _ _ _ Hrun) as (Hc & _ & _ & Hv0 & Hok & _).
    rewrite Hv in Hv0.
    assert (Hl : anyInvalid l = false)
      by (destruct (anyInvalid l); auto; discriminate).
    destruct (Hok Hl) as (states & Hs & _ & Hall). rewrite Hc in Hs.
    destruct (runInit_start _ _ _ Hrun) as (states' & Hs' & Hcase).
    rewrite Hs in Hs'. inversion Hs'; subst states'; clear Hs'.
    unfold anyInvalid in Hl. repeat rewrite orb_false_iff in Hl.
    destruct Hl as (((((Hf1 & Hf2) & _) & _) & _) & _).
    destruct Hcase as [(_ & _ & E) | (_ & cs & sv & Hcs & Hsv & _ & Hbad & Hk)];
      [congruence|].
    exists states, cs, sv. split; [assumption|]. split.
    { intros E. rewrite (Hk E) in Hf2. discriminate. }
    split; [assumption|]. split; [assumption|]. split; [|assumption].
    destruct (truthy sv); [reflexivity|].
    rewrite (Hbad eq_refl) in Hf1. discriminate.
  - intros (states & cs & start & Hs & Hk & Hcs & Hst & Htr & Hall).
    pose proof (runInit_wellFormed _ _ _ _ Hs Hcs Hst Hk Hall) as Hrun.
    rewrite Htr in Hrun.
    eexists. unfold newFSM. rewrite Hrun. split; reflexivity.
Qed.

Lemma validity_criterion_witness :
  wellFormed (config (initialClosure lightSwitch)) /\
  exists m, newFSM lightSwitch = Ret m /\ isValid m = Ret (true, m, []).
Proof.
  assert (H : exists m, newFSM lightSwitch = Ret m /\
                        isValid m = Ret (true, m, [])).
  { eexists. split; reflexivity. }
  split; [exact (proj1 (validity_criterion lightSwitch) H) | exact H].
Defined.

(** X5.  When the only defect of a configuration is its start state
    ([states] has a key and every state that [_.each] visits passes the
    inspection, but [states[startState]] is falsy, or [startState] is not a
    string and [states['null']] is falsy), the machine is invalid with
    status [ERROR_INVALID_START_STATE] and [currentState()] is [null]. *)
Theorem invalid_start_state_is_reported userConfig states cs start :
  get (config (initialClosure userConfig)) "states" = Ret states ->
  get (config (initialClosure userConfig)) "startState" = Ret cs ->
  get states (toKey (if isString cs then cs else VNull)) = Ret start ->
  truthy start = false ->
  keys states <> [] ->
  (forall name state, In (name, state) (entries states) ->
                      validState states state) ->
  newFSM userConfig =
  Ret (mkFsm (config (initialClosure userConfig)) false VNull
             ERROR_INVALID_START_STATE).
Proof.
  intros Hs Hcs Hst Htr Hk Hall.
  pose proof (runInit_wellFormed _ _ _ _ Hs Hcs Hst Hk Hall) as Hrun.
  rewrite Htr in Hrun. unfold newFSM. rewrite Hrun. reflexivity.
Qed.

Ltac callable_here :=
  intros ? Hf Ht; inversion Hf; subst; simpl in Ht; try discriminate Ht;
  reflexivity.

Lemma lostStart_states_valid :
  let states :=
    VObj [ ("Off", VObj [("events", VObj [("turnOn", ev "On")])]);
           ("On", VObj [("events", VObj [("turnOff", ev "Off")])]) ] in
  forall name state, In (name, state) (entries states) ->
                     validState states state.
Proof.
  intros states name state [E|[E|[]]]; inversion E; subst; clear E.
  - exists (VObj [("turnOn", ev "On")]). split; [reflexivity|]. split.
    + intros n e [E|[]]; inversion E; subst; clear E.
      split; [reflexivity|]. split.
      * do 2 eexists. repeat split; reflexivity.
      * split; callable_here.
    + intros _. split; callable_here.
  - exists (VObj [("turnOff", ev "Off")]). split; [reflexivity|]. split.
    + intros n e [E|[]]; inversion E; subst; clear E.
      split; [reflexivity|]. split.
      * do 2 eexists. repeat split; reflexivity.
      * split; callable_here.
    + intros _. split; callable_here.
Qed.

Lemma invalid_start_state_is_reported_witness :
  let states :=
    VObj [ ("Off", VObj [("events", VObj [("turnOn", ev "On")])]);
           ("On", VObj [("events", VObj [("turnOff", ev "Off")])]) ] in
  get (config (initialClosure lostStart)) "states" = Ret states /\
  get (config (initialClosure lostStart)) "startState" = Ret (VStr "Standby") /\
  get states "Standby" = Ret VUndef /\
  truthy VUndef = false /\
  keys states <> [] /\
  newFSM lostStart =
  Ret (mkFsm (config (initialClosure lostStart)) false VNull
             ERROR_INVALID_START_STATE).
Proof.
  intros states.
  assert (Hs : get (config (initialClosure lostStart)) "states" = Ret states)
    by reflexivity.
  assert (Hcs : get (config (initialClosure lostStart)) "startState"
                = Ret (VStr "Standby")) by reflexivity.
  assert (Hst : get states "Standby" = Ret VUndef) by reflexivity.
  assert (Htr : truthy VUndef = false) by reflexivity.
  assert (Hk : keys states <> []) by discriminate.
  split; [exact Hs|]. split; [exact Hcs|]. split; [exact Hst|].
  split; [exact Htr|]. split; [exact Hk|].
  exact (invalid_start_state_is_reported lostStart states (VStr "Standby")
           VUndef Hs Hcs Hst Htr Hk lostStart_states_valid).
Defined.

(** ** Further properties of the public API *)


Lemma isValid_returns m :
  isValid m = Ret (statusCode_eqb (initStatus m) OK, m, []).
Proof. reflexivity. Qed.

Lemma lift_Throw {S A B} (e : error) (k : A -> M S B) s :
  bind (lift (Throw e)) k s = Throw e.
Proof. reflexivity. Qed.






(** X7.  [handleEvent] returns one of the four codes its header names
    (lines 151-156): [ERROR_IMPROPERLY_INITIALIZED] exactly on a machine
    that is not internally valid and, on the others, [OK] exactly when the
    name is a key of the events of the current state, with a target that is
    a key of [config.states] and has a definition. *)
Theorem handleEvent_return_codes name m r m' t :
  handleEvent name m = Ret (r, m', t) ->
  (r = OK \/ r = ERROR_ILLEGAL_EVENT \/ r = ERROR_INVALID_TARGET_STATE
   \/ r = ERROR_IMPROPERLY_INITIALIZED) /\
  (r = ERROR_IMPROPERLY_INITIALIZED <-> isInternalValid m = false) /\
  (isInternalValid m = true ->
   (r = OK <-> exists T, registered m name T /\ declared m T)).
Proof.
  intros H.
  destruct (handleEvent_cases _ _ _ _ _ H)
    as [(Hv & -> & _) | (Hv & events & He & Hcase)].
  { split; [auto|]. split; [tauto|]. intros Hv'. congruence. }
  destruct Hcase as [(Hh & -> & _) | (T & Hreg & Hcase)].
  { split; [auto|]. split; [split; congruence|]. intros _.
    split; [discriminate|].
    intros (T & (ev' & node & He' & Hh' & _) & _).
    apply own_has in Hh'. congruence. }
  destruct Hcase as [(Hnd & -> & _) | (Hdec & -> & _)].
  - split; [auto|]. split; [split; congruence|]. intros _.
    split; [discriminate|].
    intros (T' & Hreg' & Hdec').
    rewrite (registered_functional _ _ _ _ Hreg Hreg') in Hnd. contradiction.
  - split; [auto|]. split; [split; congruence|]. intros _. split; eauto.
Qed.

Lemma handleEvent_return_codes_witness :
  let m := mkFsm lightSwitch true (VStr "Off") OK in
  let m' := mkFsm lightSwitch true (VStr "On") OK in
  handleEvent "turnOn" m = Ret (OK, m', []) /\
  (OK = OK \/ OK = ERROR_ILLEGAL_EVENT \/ OK = ERROR_INVALID_TARGET_STATE
   \/ OK = ERROR_IMPROPERLY_INITIALIZED) /\
  (OK = ERROR_IMPROPERLY_INITIALIZED <-> isInternalValid m = false) /\
  (isInternalValid m = true ->
   (OK = OK <-> exists T, registered m "turnOn" T /\ declared m T)).
Proof.
  intros m m'.
  assert (H : handleEvent "turnOn" m = Ret (OK, m', [])) by reflexivity.
  split; [exact H|].
  exact (handleEvent_return_codes "turnOn" m OK m' [] H).
Defined.

(** X8.  [canHandleEvent] and [handleEvent] agree: whenever [handleEvent]
    returns, [canHandleEvent] for the same name answers true exactly when
    that return is [OK] or [ERROR_INVALID_TARGET_STATE], and it leaves the
    machine as it is. *)
Theorem canHandleEvent_agrees name m r m' t :
  handleEvent name m = Ret (r, m', t) ->
  canHandleEvent name m =
  Ret (match r with
       | OK | ERROR_INVALID_TARGET_STATE => true
       | _ => false
       end, m, []).
Proof.
  intros H.
  destruct (handleEvent_cases _ _ _ _ _ H)
    as [(Hv & -> & _) | (Hv & events & He & Hcase)].
  { apply handleEvent_invalid. assumption. }
  rewrite (canHandleEvent_valid _ _ _ Hv He).
  destruct Hcase as [(Hh & -> & _) | (T & (ev' & node & He' & Hh & _) & Hcase)].
  { rewrite Hh. reflexivity. }
  rewrite He in He'. inversion He'; subst ev'. rewrite (own_has _ _ _ Hh).
  destruct Hcase as [(_ & -> & _) | (_ & -> & _)]; reflexivity.
Qed.

Lemma canHandleEvent_agrees_witness :
  let m := mkFsm strayTarget true (VStr "On") OK in
  handleEvent "turnOff" m = Ret (ERROR_INVALID_TARGET_STATE, m, []) /\
  canHandleEvent "turnOff" m = Ret (true, m, []).
Proof.
  intros m.
  assert (H : handleEvent "turnOff" m
              = Ret (ERROR_INVALID_TARGET_STATE, m, [])) by reflexivity.
  split; [exact H|].
  exact (canHandleEvent_agrees "turnOff" m _ m [] H).
Defined.

(** X9.  A machine whose validation failed never changes: every machine
    reached from its construction is the machine [newFSM] returned. *)
Theorem invalid_machine_is_frozen userConfig m0 m :
  newFSM userConfig = Ret m0 ->
  isValid m0 = Ret (false, m0, []) ->
  reachable userConfig m ->
  m = m0.
Proof.
  intros Hnew Hval Hreach.
  pose proof (reachable_isValid _ _ _ (reach_new _ _ Hnew) Hval) as Hv.
  induction Hreach as [m Hnew' | m name r m' t Hreach IH Hstep].
  - congruence.
  - subst m. destruct (handleEvent_invalid name m0 Hv) as [H _].
    rewrite H in Hstep. inversion Hstep. reflexivity.
Qed.

Lemma invalid_machine_is_frozen_witness :
  let m0 := mkFsm badAction false (VStr "A") ERROR_INVALID_ACTION_FUNCTION in
  newFSM badAction = Ret m0 /\
  isValid m0 = Ret (false, m0, []) /\
  reachable badAction m0 /\
  m0 = m0.
Proof.
  intros m0.
  assert (Hn : newFSM badAction = Ret m0) by reflexivity.
  assert (Hv : isValid m0 = Ret (false, m0, [])) by reflexivity.
  assert (Hr : reachable badAction m0).
  { apply (reach_handle badAction m0 "go" ERROR_IMPROPERLY_INITIALIZED m0 []);
      [apply reach_new|]; reflexivity. }
  split; [exact Hn|]. split; [exact Hv|]. split; [exact Hr|].
  exact (invalid_machine_is_frozen badAction m0 m0 Hn Hv Hr).
Defined.

(** X10.  Validation happens once: on every machine reached from a
    construction, the configuration, [status()] and [isValid()] are those
    of the machine [newFSM] returned. *)
Theorem validation_is_fixed userConfig m0 m :
  newFSM userConfig = Ret m0 ->
  reachable userConfig m ->
  config m = config (initialClosure userConfig) /\
  (exists s, status m = Ret (s, m, []) /\ status m0 = Ret (s, m0, [])) /\
  (exists b, isValid m = Ret (b, m, []) /\ isValid m0 = Ret (b, m0, [])).
Proof.
  intros Hnew Hreach.
  destruct (reachable_inv _ _ Hreach) as (l & m1 & Hrun & Hc & _ & Hst & _).
  destruct (newFSM_runInit _ _ Hnew) as [l0 Hrun0].
  rewrite Hrun in Hrun0. inversion Hrun0; subst l0 m1; clear Hrun0.
  split; [rewrite Hc; apply (newFSM_config _ _ Hnew)|].
  unfold status, isValid, reads. rewrite Hst. split; eauto.
Qed.

Lemma validation_is_fixed_witness :
  let m0 := mkFsm lightSwitch true (VStr "Off") OK in
  let m := mkFsm lightSwitch true (VStr "On") OK in
  newFSM lightSwitch = Ret m0 /\
  reachable lightSwitch m /\
  config m = config (initialClosure lightSwitch) /\
  (exists s, status m = Ret (s, m, []) /\ status m0 = Ret (s, m0, [])) /\
  (exists b, isValid m = Ret (b, m, []) /\ isValid m0 = Ret (b, m0, [])).
Proof.
  intros m0 m.
  assert (Hn : newFSM lightSwitch = Ret m0) by reflexivity.
  assert (Hr : reachable lightSwitch m).
  { apply (reach_handle lightSwitch m0 "turnOn" OK m []);
      [apply reach_new|]; reflexivity. }
  split; [exact Hn|]. split; [exact Hr|].
  exact (validation_is_fixed lightSwitch m0 m Hn Hr).
Defined.

(** X11.  After [handleEvent] has returned [OK] on a valid machine, the
    machine is in the target of the event, it is still valid, and
    [canHandleEvent] does not throw: it answers what [_.has] finds in the
    events mapping of that target, which for a name without dot or bracket
    is whether the name is a property of that mapping. *)
Theorem after_transition userConfig m name m' t :
  reachable userConfig m ->
  isValid m = Ret (true, m, []) ->
  handleEvent name m = Ret (OK, m', t) ->
  transition m name "toState" = Ret (current m') /\
  isValid m' = Ret (true, m', []) /\
  exists events,
    currentEvents m' = Ret events /\
    forall x,
      canHandleEvent x m' = Ret (has events x, m', []) /\
      (isDeepProp x = false -> has events x = hasOwn events x).
Proof.
  intros Hreach Hval Hstep.
  pose proof (reach_handle _ _ _ _ _ _ Hreach Hstep) as Hreach'.
  destruct (handleEvent_cases _ _ _ _ _ Hstep)
    as [(_ & E & _) | (_ & events & _ & Hcase)]; [discriminate|].
  destruct Hcase as [(_ & E & _) | (T & Hreg & Hcase)]; [discriminate|].
  destruct Hcase as [(_ & E & _) | (_ & _ & Hm' & _)]; [discriminate|].
  assert (Hval' : isValid m' = Ret (true, m', [])).
  { apply isValid_Ret. apply isValid_Ret in Hval. subst m'. exact Hval. }
  split.
  { destruct Hreg as (ev' & node & He & Hown & Ht).
    unfold transition. rewrite He, (own_get _ _ _ Hown), Ht.
    subst m'. reflexivity. }
  split; [assumption|].
  destruct (reachable_valid _ _ Hreach' Hval')
    as (Hv & states & state & Hs & _ & Hst & Htr).
  destruct (get_defined _ "events" Htr) as [events' He].
  assert (Hce : currentEvents m' = Ret events').
  { unfold currentEvents. rewrite Hs, Hst. assumption. }
  exists events'. split; [assumption|].
  intros x. split; [apply canHandleEvent_valid; assumption|].
  apply has_plain.
Qed.

Lemma after_transition_witness :
  let m := mkFsm lightSwitch true (VStr "Off") OK in
  let m' := mkFsm lightSwitch true (VStr "On") OK in
  reachable lightSwitch m /\
  isValid m = Ret (true, m, []) /\
  handleEvent "turnOn" m = Ret (OK, m', []) /\
  transition m "turnOn" "toState" = Ret (current m') /\
  isValid m' = Ret (true, m', []) /\
  exists events,
    currentEvents m' = Ret events /\
    forall x,
      canHandleEvent x m' = Ret (has events x, m', []) /\
      (isDeepProp x = false -> has events x = hasOwn events x).
Proof.
  intros m m'.
  assert (Hr : reachable lightSwitch m) by (apply reach_new; reflexivity).
  assert (Hv : isValid m = Ret (true, m, [])) by reflexivity.
  assert (Hs : handleEvent "turnOn" m = Ret (OK, m', [])) by reflexivity.
  split; [exact Hr|]. split; [exact Hv|]. split; [exact Hs|].
  exact (after_transition lightSwitch m "turnOn" m' [] Hr Hv Hs).
Defined.

Lemma no_property_no_event events name :
  (forall k, hasOwn events k = false) -> has events name = false.
Proof.
  intros H. unfold has. destruct (nullish events); [reflexivity|].
  destruct (castPath name events) as [|k rest]; [reflexivity|].
  cbn [negb andb ownPath]. specialize (H k). unfold hasOwn in H.
  destruct (ownProperty events k); [discriminate | reflexivity].
Qed.

(** X12.  A state without events is final (the warning of line 92): once a
    valid machine is in a state whose events mapping has no property of its
    own (it is absent or [{}]), every call of [handleEvent], with any names
    in any number, returns [ERROR_ILLEGAL_EVENT], calls nothing and leaves
    the machine where it is. *)
Theorem state_without_events_is_final userConfig m events names :
  reachable userConfig m ->
  isValid m = Ret (true, m, []) ->
  currentEvents m = Ret events ->
  (forall k, hasOwn events k = false) ->
  handleEvents names m =
  Ret (map (fun _ => ERROR_ILLEGAL_EVENT) names, m, []).
Proof.
  intros Hreach Hval He Hk.
  pose proof (reachable_isValid _ _ _ Hreach Hval) as Hv.
  induction names as [|name rest IH]; simpl; [reflexivity|].
  unfold bind at 1.
  rewrite (handleEvent_illegal _ _ _ Hv He (no_property_no_event _ name Hk)).
  unfold bind at 1. rewrite IH. reflexivity.
Qed.

Lemma state_without_events_is_final_witness :
  let m := mkFsm oneWay true (VStr "Done") OK in
  reachable oneWay m /\
  isValid m = Ret (true, m, []) /\
  currentEvents m = Ret (VObj []) /\
  (forall k, hasOwn (VObj []) k = false) /\
  handleEvents ["finish"; "restart"] m =
  Ret (map (fun _ => ERROR_ILLEGAL_EVENT) ["finish"; "restart"], m, []).
Proof.
  intros m.
  assert (Hr : reachable oneWay m).
  { apply (reach_handle oneWay (mkFsm oneWay true (VStr "Busy") OK)
             "finish" OK m []); [apply reach_new|]; reflexivity. }
  assert (Hv : isValid m = Ret (true, m, [])) by reflexivity.
  assert (He : currentEvents m = Ret (VObj [])) by reflexivity.
  assert (Hk : forall k, hasOwn (VObj []) k = false) by reflexivity.
  split; [exact Hr|]. split; [exact Hv|]. split; [exact He|].
  split; [exact Hk|].
  exact (state_without_events_is_final oneWay m (VObj [])
           ["finish"; "restart"] Hr Hv He Hk).
Defined.

Lemma inspectEvent_code states event name s u s' t :
  inspectEvent states event name s = Ret (u, s', t) ->
  constructionCode (initStatus (snd s)) = true ->
  constructionCode (initStatus (snd s')) = true.
Proof.
  unfold inspectEvent. intros H. mcase.
  all: destruct s as [? []]; simpl; auto.
Qed.

Lemma inspectActions_code state s u s' t :
  inspectActions state s = Ret (u, s', t) ->
  constructionCode (initStatus (snd s)) = true ->
  constructionCode (initStatus (snd s')) = true.
Proof.
  unfold inspectActions. intros H. mcase.
  all: destruct s as [? []]; simpl; auto.
Qed.

Lemma inspectState_code states state name s u s' t :
  inspectState states state name s = Ret (u, s', t) ->
  constructionCode (initStatus (snd s)) = true ->
  constructionCode (initStatus (snd s')) = true.
Proof.
  unfold inspectState, each. intros H.
  apply bind_Ret in H. destruct H as (events & s1 & t1 & t2 & H1 & H2 & ->).
  minv. cbv zeta in H2.
  destruct (length (keys events) <? 1)%nat.
  - minv. auto.
  - apply bind_Ret in H2. destruct H2 as (? & s2 & ? & ? & Ha & He & ->).
    intros Hc. apply (inspectActions_code _ _ _ _ _ Ha) in Hc. revert Hc.
    eapply (forEach_preserves
              (fun s => constructionCode (initStatus (snd s)) = true)).
    + intros. eapply inspectEvent_code; eassumption.
    + eassumption.
Qed.

(** X13.  [status()] is never one of the two codes that only [handleEvent]
    returns: on every machine in use it is [OK] or one of the six codes of
    validation. *)
Theorem status_is_a_construction_code userConfig m :
  reachable userConfig m ->
  exists s, status m = Ret (s, m, []) /\
            s <> ERROR_ILLEGAL_EVENT /\ s <> ERROR_IMPROPERLY_INITIALIZED.
Proof.
  intros Hreach.
  destruct (reachable_inv _ _ Hreach) as (l & m0 & Hrun & _ & _ & Hst & _).
  exists (initStatus m). split; [reflexivity|]. rewrite Hst.
  assert (Hc : constructionCode (initStatus m0) = true).
  { unfold runInit in Hrun.
    destruct (init (noError, initialClosure userConfig))
      as [[[u s] t]|e] eqn:Hinit; [|discriminate].
    inversion Hrun; subst s; clear Hrun.
    unfold init in Hinit.
    apply bind_Ret in Hinit. destruct Hinit as (cfg & s1 & ? & ? & Hcfg & H & _).
    apply reads_Ret in Hcfg. destruct Hcfg as (-> & -> & ->).
    apply bind_Ret in H. destruct H as (states & s1 & ? & ? & Hs & H & _).
    apply lift_Ret in Hs. destruct Hs as (Hs & -> & ->).
    apply bind_Ret in H. destruct H as (? & sv & ? & ? & Hbody & H & _).
    apply bind_Ret in H. destruct H as (l' & s1 & ? & ? & Hl & H & _).
    apply reads_Ret in Hl. destruct Hl as (-> & -> & ->).
    unfold assign in H. apply modify_Ret in H. destruct H as (E & _).
    inversion E; subst l m0; clear E. simpl.
    destruct (truthy states).
    - apply bind_Ret in Hbody.
      destruct Hbody as (cs & s1 & ? & ? & Hcs & Hbody & _).
      apply lift_Ret in Hcs. destruct Hcs as (Hcs & -> & ->).
      apply bind_Ret in Hbody.
      destruct Hbody as (start & s1 & ? & ? & Hsv & Hbody & _).
      apply lift_Ret in Hsv. destruct Hsv as (Hsv & -> & ->).
      apply bind_Ret in Hbody.
      destruct Hbody as (? & s1 & ? & ? & Hstart & Hbody & _).
      apply bind_Ret in Hbody.
      destruct Hbody as (? & s2 & ? & ? & Hnone & Hloop & _).
      unfold each in Hloop.
      assert (Hpre : constructionCode (initStatus (snd s2)) = true).
      { unfold when in Hnone.
        destruct (truthy start); mcase; reflexivity. }
      revert Hpre.
      eapply (forEach_preserves
                (fun s => constructionCode (initStatus (snd s)) = true)).
      + intros. eapply inspectState_code; eassumption.
      + eassumption.
    - mcase. reflexivity. }
  destruct (initStatus m0); simpl in Hc; split; congruence.
Qed.

Lemma status_is_a_construction_code_witness :
  let m := mkFsm badActionBadTarget false (VStr "A")
                 ERROR_INVALID_TARGET_STATE in
  reachable badActionBadTarget m /\
  exists s, status m = Ret (s, m, []) /\
            s <> ERROR_ILLEGAL_EVENT /\ s <> ERROR_IMPROPERLY_INITIALIZED.
Proof.
  intros m.
  assert (Hr : reachable badActionBadTarget m)
    by (apply reach_new; reflexivity).
  split; [exact Hr|].
  exact (status_is_a_construction_code badActionBadTarget m Hr).
Defined.

Lemma invalid_target_is_inherited_witness :
  let m := mkFsm strayTarget true (VStr "On") OK in
  let states := prop strayTarget "states" in
  let events := prop (prop states "On") "events" in
  reachable strayTarget m /\
  isValid m = Ret (true, m, []) /\
  get (config m) "states" = Ret states /\
  currentEvents m = Ret events /\
  keyed states = true /\ keyed events = true /\
  handleEvent "turnOff" m = Ret (ERROR_INVALID_TARGET_STATE, m, []) /\
  exists T,
    registered m "turnOff" (VStr T) /\ ~ declared m (VStr T) /\
    existsb (String.eqb T) objectPrototype = true.
Proof.
  intros m states events.
  assert (Hr : reachable strayTarget m).
  { apply (reach_handle strayTarget (mkFsm strayTarget true (VStr "Off") OK)
             "turnOn" OK m []); [apply reach_new|]; reflexivity. }
  assert (Hv : isValid m = Ret (true, m, [])) by reflexivity.
  assert (Hst : get (config m) "states" = Ret states) by reflexivity.
  assert (He : currentEvents m = Ret events) by reflexivity.
  assert (Hks : keyed states = true) by reflexivity.
  assert (Hke : keyed events = true) by reflexivity.
  assert (Hs : handleEvent "turnOff" m
               = Ret (ERROR_INVALID_TARGET_STATE, m, [])) by reflexivity.
  split; [exact Hr|]. split; [exact Hv|]. split; [exact Hst|].
  split; [exact He|]. split; [exact Hks|]. split; [exact Hke|].
  split; [exact Hs|].
  exact (invalid_target_is_inherited strayTarget m "turnOff" m [] states
           events Hr Hv Hst He Hks Hke Hs).
Defined.

Lemma handleEvent_OK_declared_witness :
  let m := mkFsm lightSwitch true (VStr "Off") OK in
  let m' := mkFsm lightSwitch true (VStr "On") OK in
  handleEvent "turnOn" m = Ret (OK, m', []) /\
  declared m' (current m').
Proof.
  intros m m'.
  assert (Hs : handleEvent "turnOn" m = Ret (OK, m', [])) by reflexivity.
  split; [exact Hs|].
  exact (handleEvent_OK_declared "turnOn" m m' [] Hs).
Defined.

(** X17.  On a valid machine, for every name without dot or bracket that is
    not a property of the events mapping of the current state,
    [canHandleEvent] returns false and [handleEvent] returns
    [ERROR_ILLEGAL_EVENT], leaves the machine as it is and calls nothing. *)
Theorem plain_unknown_event_is_rejected userConfig m :
  reachable userConfig m ->
  isValid m = Ret (true, m, []) ->
  exists events,
    currentEvents m = Ret events /\
    forall name,
      isDeepProp name = false -> hasOwn events name = false ->
      canHandleEvent name m = Ret (false, m, []) /\
      handleEvent name m = Ret (ERROR_ILLEGAL_EVENT, m, []).
Proof.
  intros Hreach Hval.
  destruct (reachable_valid _ _ Hreach Hval)
    as (Hv & states & state & Hs & _ & Hst & Hsn).
  destruct (get_defined _ "events" Hsn) as [events He].
  assert (Hce : currentEvents m = Ret events).
  { unfold currentEvents. rewrite Hs, Hst. assumption. }
  exists events. split; [assumption|]. intros name Hd Ho.
  assert (Hh : has events name = false).
  { rewrite (has_plain _ _ Hd). exact Ho. }
  split.
  - rewrite (canHandleEvent_valid _ _ _ Hv Hce), Hh. reflexivity.
  - eapply handleEvent_illegal; eassumption.
Qed.

Lemma plain_unknown_event_is_rejected_witness :
  let m := mkFsm lightSwitch true (VStr "Off") OK in
  reachable lightSwitch m /\
  isValid m = Ret (true, m, []) /\
  exists events,
    currentEvents m = Ret events /\
    forall name,
      isDeepProp name = false -> hasOwn events name = false ->
      canHandleEvent name m = Ret (false, m, []) /\
      handleEvent name m = Ret (ERROR_ILLEGAL_EVENT, m, []).
Proof.
  intros m.
  assert (Hr : reachable lightSwitch m) by (apply reach_new; reflexivity).
  assert (Hv : isValid m = Ret (true, m, [])) by reflexivity.
  split; [exact Hr|]. split; [exact Hv|].
  exact (plain_unknown_event_is_rejected lightSwitch m Hr Hv).
Defined.
